(** * Anova4All: the connection layer of [anova_wifi]

    A shallow embedding of [src/anova_wifi/connection.py]
    (class [AnovaConnection]) and the properties of its session layer:
    routing of decoded messages, the single reply slot, the background
    receive loop and its life cycle.

    The program is asyncio code: one thread, cooperative scheduling.  A
    coroutine runs without interruption from one [await] that suspends to
    the next.  The embedding therefore cuts every coroutine of the class
    into its atomic segments, each a function on an explicit [World], and
    lets a scheduler/environment [Action] select the segment that runs
    next.  Objects with identity that are shared between coroutines
    ([asyncio.Future], [asyncio.Task]) live in stores of the [World] and are
    named by their index.

    What the embedding takes from asyncio and from the callers:
    - [StreamWriter.write] accepts every chunk; [drain] and [wait_closed]
      complete as the transport decides (they return, or they raise when
      the connection is lost), which is an input of the call, and do not
      give way to another coroutine;
    - the event callback runs to its end, or to its exception, within the
      step of [receive] that invokes it;
    - exceptions are instances of [Exception], or [CancelledError]. *)

From stdpp Require Import base option list.
From Stdlib Require Import Strings.Ascii Strings.String Strings.Byte.
From Stdlib Require Import Lia.

Open Scope string_scope.

(** ** Python values used by the class *)

(** The exceptions that travel through the class.  [Exception] stands for
    any subclass of Python's [Exception] that has no handler of its own in
    the class (what [Encoder.decode], [AnovaEvent.parse_event] or the event
    callback may raise); its argument is the text [str(e)]. *)
Inductive exn : Type :=
  | ConnectionResetError (text : string)
  | CancelledError
  | TimeoutError
  | TypeError (text : string)
  | Exception (text : string).

(** [str(e)], as the f-string of line 51 renders it. *)
Definition exn_str (e : exn) : string :=
  match e with
  | ConnectionResetError t => t
  | CancelledError => ""
  | TimeoutError => ""
  | TypeError t => t
  | Exception t => t
  end.

(** How a call (or an awaited expression) completes. *)
Inductive outcome (A : Type) : Type :=
  | Return (v : A)
  | Raise (e : exn).
Arguments Return {A} v.
Arguments Raise {A} e.

(** [bytes] objects. *)
Abbreviation bytes := (list byte).

(** ** Strings: [str.lower] and the operator [in]

    Decoded messages are texts of the appliance's ASCII protocol; they are
    modelled as [string]s of 8-bit characters, and [str.lower] as the
    lowering of the letters [A]-[Z]. *)
Module Str.

Definition lower_char (c : ascii) : ascii :=
  let n := nat_of_ascii c in
  if (65 <=? n)%nat && (n <=? 90)%nat then ascii_of_nat (n + 32) else c.

Fixpoint lower (s : string) : string :=
  match s with
  | EmptyString => EmptyString
  | String c s' => String (lower_char c) (lower s')
  end.

(** [pat in s]: [pat] occurs in [s] as a contiguous substring. *)
Fixpoint contains (pat s : string) : bool :=
  String.prefix pat s ||
  match s with
  | EmptyString => false
  | String _ s' => contains pat s'
  end.

(** What it means for a text to contain a pattern, ignoring the case of
    letters: some slice of the text lowers to the pattern. *)
Definition contains_ci (pat s : string) : Prop :=
  exists pre mid post, s = pre ++ mid ++ post /\ lower mid = pat.

End Str.

(** ** The collaborators of the class

    [Encoder] ([encoding.py]) and [AnovaEvent] ([event.py]) are imported by
    [connection.py]; the class uses them through this interface only.
    [decode] and [parse_event] may raise, [encode] and [is_event] are pure. *)
Class Protocol : Type := {
  AnovaEvent : Type;
  encode : string -> bytes;
  decode : bytes -> outcome string;
  is_event : string -> bool;
  parse_event : string -> outcome AnovaEvent;
}.

(** ** asyncio objects *)

(** An [asyncio.Future[str]]. *)
Inductive FutureState : Type :=
  | FutPending
  | FutResult (r : string)
  | FutCancelled.

(** [Future.done()]: true for a future with a result and for a cancelled
    one. *)
Definition done (st : FutureState) : bool :=
  match st with
  | FutPending => false
  | _ => true
  end.

(** The [asyncio.Task] that runs [_listen].  [must_cancel] records a
    [Task.cancel()] that the task has not yet seen. *)
Inductive TaskState : Type :=
  | TaskScheduled (must_cancel : bool)  (* created, first step not yet run *)
  | TaskReading (must_cancel : bool)    (* suspended in reader.read(1024)  *)
  | TaskFinished                        (* _listen returned                *)
  | TaskCancelled.                      (* cancelled before its first step *)

Definition task_done (st : TaskState) : bool :=
  match st with
  | TaskFinished | TaskCancelled => true
  | _ => false
  end.

(** The [asyncio.StreamWriter]: what was written, and whether [close()]
    was called.  The transport is taken to accept every write. *)
Record StreamWriter : Type := {
  written : list bytes;
  closed : bool;
}.

Inductive Level : Type := DEBUG | INFO | WARNING | ERROR.

Definition LogRecord : Type := Level * string.

(** ** Coroutines in flight *)

(** Where an invocation of [send_command] stands. *)
Inductive CallState : Type :=
  | InWaitFor (f : nat) (expired : bool)
      (* line 30: suspended in wait_for(f, timeout=10); [expired] once the
         timeout has run out *)
  | InAwait (g : nat)
      (* line 34: suspended in await self.response_future *)
  | Completed (r : outcome string).

Record Call : Type := {
  message : string;
  at_ : CallState;
}.

(** Where an invocation of [close] stands. *)
Inductive CloseState : Type :=
  | CloseAwaitTask (t : nat)            (* line 83: await self.listen_task *)
  | CloseCompleted (r : outcome unit).

(** ** The state

    The three attributes of an [AnovaConnection], then the objects they
    refer to, then what the outside can observe (the writer, the log, the
    events handed to the callback) and the coroutines in flight. *)
Section State.
Context {P : Protocol}.

(** The caller-supplied coroutine function: it completes or raises. *)
Definition Callback : Type := AnovaEvent -> outcome unit.

Record World : Type := {
  response_future : option nat;
  event_callback : option Callback;
  listen_task : option nat;
  futures : list FutureState;
  tasks : list TaskState;
  writer : StreamWriter;
  log : list LogRecord;
  delivered : list AnovaEvent;
  calls : list Call;
  closes : list CloseState;
}.

(** [__init__]: the class attributes are all [None]. *)
Definition init : World :=
  {| response_future := None; event_callback := None; listen_task := None;
     futures := []; tasks := []; writer := {| written := []; closed := false |};
     log := []; delivered := []; calls := []; closes := [] |}.

Definition set_response_future (v : option nat) (w : World) : World :=
  {| response_future := v; event_callback := event_callback w;
     listen_task := listen_task w; futures := futures w; tasks := tasks w;
     writer := writer w; log := log w; delivered := delivered w;
     calls := calls w; closes := closes w |}.

Definition set_event_callback_field (v : option Callback) (w : World) : World :=
  {| response_future := response_future w; event_callback := v;
     listen_task := listen_task w; futures := futures w; tasks := tasks w;
     writer := writer w; log := log w; delivered := delivered w;
     calls := calls w; closes := closes w |}.

Definition set_listen_task (v : option nat) (w : World) : World :=
  {| response_future := response_future w; event_callback := event_callback w;
     listen_task := v; futures := futures w; tasks := tasks w;
     writer := writer w; log := log w; delivered := delivered w;
     calls := calls w; closes := closes w |}.

Definition set_futures (v : list FutureState) (w : World) : World :=
  {| response_future := response_future w; event_callback := event_callback w;
     listen_task := listen_task w; futures := v; tasks := tasks w;
     writer := writer w; log := log w; delivered := delivered w;
     calls := calls w; closes := closes w |}.

Definition set_tasks (v : list TaskState) (w : World) : World :=
  {| response_future := response_future w; event_callback := event_callback w;
     listen_task := listen_task w; futures := futures w; tasks := v;
     writer := writer w; log := log w; delivered := delivered w;
     calls := calls w; closes := closes w |}.

Definition set_writer (v : StreamWriter) (w : World) : World :=
  {| response_future := response_future w; event_callback := event_callback w;
     listen_task := listen_task w; futures := futures w; tasks := tasks w;
     writer := v; log := log w; delivered := delivered w;
     calls := calls w; closes := closes w |}.

Definition set_log (v : list LogRecord) (w : World) : World :=
  {| response_future := response_future w; event_callback := event_callback w;
     listen_task := listen_task w; futures := futures w; tasks := tasks w;
     writer := writer w; log := v; delivered := delivered w;
     calls := calls w; closes := closes w |}.

Definition set_delivered (v : list AnovaEvent) (w : World) : World :=
  {| response_future := response_future w; event_callback := event_callback w;
     listen_task := listen_task w; futures := futures w; tasks := tasks w;
     writer := writer w; log := log w; delivered := v;
     calls := calls w; closes := closes w |}.

Definition set_calls (v : list Call) (w : World) : World :=
  {| response_future := response_future w; event_callback := event_callback w;
     listen_task := listen_task w; futures := futures w; tasks := tasks w;
     writer := writer w; log := log w; delivered := delivered w;
     calls := v; closes := closes w |}.

Definition set_closes (v : list CloseState) (w : World) : World :=
  {| response_future := response_future w; event_callback := event_callback w;
     listen_task := listen_task w; futures := futures w; tasks := tasks w;
     writer := writer w; log := log w; delivered := delivered w;
     calls := calls w; closes := v |}.

End State.

(** ** The methods of [AnovaConnection] *)
Section Operations.
Context {P : Protocol}.

(** [logger.<level>(text)] *)
Definition logger (lvl : Level) (text : string) (w : World) : World :=
  set_log (log w ++ [(lvl, text)]) w.

(** [self.writer.write(data)] *)
Definition writer_write (data : bytes) (w : World) : World :=
  set_writer {| written := written (writer w) ++ [data];
                closed := closed (writer w) |} w.

(** [self.writer.close()] *)
Definition writer_close (w : World) : World :=
  set_writer {| written := written (writer w); closed := true |} w.

Definition with_state (st : CallState) (cl : Call) : Call :=
  {| message := message cl; at_ := st |}.

Definition set_call (c : nat) (st : CallState) (w : World) : World :=
  set_calls (alter (with_state st) c (calls w)) w.

Definition set_task (t : nat) (st : TaskState) (w : World) : World :=
  set_tasks (<[t := st]> (tasks w)) w.

(** *** [send_command], lines 20-36 *)

(** Lines 21-30, up to the suspension in [asyncio.wait_for], or to the
    end of the call.  The frame and its terminator are written; [dr] is
    how [await self.writer.drain()] completes.  When [drain] raises (a
    [ConnectionResetError] once the connection is lost, or the exception
    the connection was lost with), the call ends there with that
    exception: line 24 is before the [try] statement, so no future is
    created, the slot is left as it is and no [finally] clause runs.
    When [drain] returns, a fresh future is stored in the slot whatever
    the slot held, and the call waits for that future. *)
Definition send_command (message : string) (dr : outcome unit) (w : World)
  : World :=
  let encoded := encode message in
  let w := writer_write encoded w in
  let w := writer_write [x16] w in
  match dr with
  | Raise e =>
      set_calls
        (calls w ++ [{| message := message; at_ := Completed (Raise e) |}]) w
  | Return _ =>
      let w := logger DEBUG ("Sent message: " ++ message) w in
      let f := List.length (futures w) in
      let w := set_futures (futures w ++ [FutPending]) w in
      let w := set_response_future (Some f) w in
      set_calls
        (calls w ++ [{| message := message; at_ := InWaitFor f false |}]) w
  end.

(** Line 36, the [finally] clause. *)
Definition finally_clear (w : World) : World :=
  set_response_future None w.

(** The call leaves the [try] statement with outcome [r]: the [finally]
    clause runs, then the call completes. *)
Definition complete (c : nat) (r : outcome string) (w : World) : World :=
  set_call c (Completed r) (finally_clear w).

(** [await fut] on the future [g]: the result of a resolved future, a
    [CancelledError] for a cancelled one, and [None] when the awaiting
    coroutine has to suspend. *)
Definition await_future (w : World) (g : nat) : option (outcome string) :=
  match futures w !! g with
  | Some (FutResult r) => Some (Return r)
  | Some FutCancelled => Some (Raise CancelledError)
  | _ => None
  end.

(** Lines 31-34, the handler of [asyncio.TimeoutError].  The slot is read
    again here: [await self.response_future]. *)
Definition on_timeout (c : nat) (msg : string) (w : World) : World :=
  let w := logger WARNING
             ("No response received within timeout for command: " ++ msg) w in
  match response_future w with
  | None =>
      complete c (Raise (TypeError
        "object NoneType can't be used in 'await' expression")) w
  | Some g =>
      match await_future w g with
      | Some r => complete c r w
      | None => set_call c (InAwait g) w
      end
  end.

(** The timeout of [wait_for] expires while the awaited future is
    pending: [wait_for] cancels the future it was given (asyncio:
    "If a timeout occurs, it cancels the task and raises TimeoutError.
    To avoid the task cancellation, wrap it in shield()"); the waiting
    call is woken with [TimeoutError] at its next step. *)
Definition timer (c : nat) (w : World) : option World :=
  match calls w !! c with
  | Some {| message := _; at_ := InWaitFor f false |} =>
      match futures w !! f with
      | Some FutPending =>
          Some (set_call c (InWaitFor f true)
                  (set_futures (<[f := FutCancelled]> (futures w)) w))
      | _ => None
      end
  | _ => None
  end.

(** The event loop resumes a suspended call whose awaited future is
    done. *)
Definition resume (c : nat) (w : World) : option World :=
  match calls w !! c with
  | Some {| message := msg; at_ := InWaitFor f expired |} =>
      match futures w !! f with
      | Some (FutResult r) => Some (complete c (Return r) w)
      | Some FutCancelled =>
          if expired then Some (on_timeout c msg w)
          else Some (complete c (Raise CancelledError) w)
      | _ => None
      end
  | Some {| message := _; at_ := InAwait g |} =>
      match await_future w g with
      | Some r => Some (complete c r w)
      | None => None
      end
  | _ => None
  end.

(** The caller cancels the task that runs the call while it waits on a
    pending future: the future is cancelled with the task, the
    [CancelledError] is not an [asyncio.TimeoutError] and leaves through
    the [finally] clause. *)
Definition cancel_call (c : nat) (w : World) : option World :=
  match calls w !! c with
  | Some {| message := _; at_ := InWaitFor f false |}
  | Some {| message := _; at_ := InAwait f |} =>
      match futures w !! f with
      | Some FutPending =>
          Some (complete c (Raise CancelledError)
                  (set_futures (<[f := FutCancelled]> (futures w)) w))
      | _ => None
      end
  | _ => None
  end.

(** *** [start_listening], lines 38-40 *)
Definition start_listening (w : World) : World :=
  match listen_task w with
  | Some _ => w
  | None =>
      let t := List.length (tasks w) in
      set_listen_task (Some t) (set_tasks (tasks w ++ [TaskScheduled false]) w)
  end.

(** *** [set_event_callback], lines 76-77 *)
Definition set_event_callback (callback : Callback) (w : World) : World :=
  set_event_callback_field (Some callback) w.

(** *** [receive], lines 53-74 *)

(** The test of line 62. *)
Definition invalid_command (msg : string) : bool :=
  Str.contains "invalid command" (Str.lower msg).

(** The test of line 69: the future of the slot, when there is one and
    it is not done. *)
Definition waiter (w : World) : option nat :=
  match response_future w with
  | Some f =>
      match futures w !! f with
      | Some st => if done st then None else Some f
      | None => None
      end
  | None => None
  end.

(** [fut.set_result(msg)] *)
Definition set_result (f : nat) (msg : string) (w : World) : World :=
  set_futures (<[f := FutResult msg]> (futures w)) w.

(** Lines 60-74: what [receive] does with the decoded message. *)
Definition route (msg : string) (w : World) : World * outcome (option string) :=
  let w := logger DEBUG ("Received message: " ++ msg) w in
  if invalid_command msg then
    (logger ERROR ("Received invalid command, skipping: " ++ msg) w,
     Return None)
  else if is_event msg then
    match event_callback w with
    | Some callback =>
        match parse_event msg with
        | Raise e => (w, Raise e)
        | Return ev =>
            let w := set_delivered (delivered w ++ [ev]) w in
            match callback ev with
            | Raise e => (w, Raise e)
            | Return _ => (w, Return (Some msg))
            end
        end
    | None => (w, Return (Some msg))
    end
  else
    match waiter w with
    | Some f => (set_result f msg w, Return (Some msg))
    | None =>
        (logger WARNING ("Received unexpected message: " ++ msg) w,
         Return (Some msg))
    end.

(** [rd] is how [await self.reader.read(1024)] completes: with the bytes
    read (none at end of stream), or with the [CancelledError] thrown
    into the read when the task is cancelled.  Lines 54-59, then
    [route]. *)
Definition receive (rd : outcome bytes) (w : World)
  : World * outcome (option string) :=
  match rd with
  | Raise e => (w, Raise e)
  | Return [] =>
      (logger ERROR "Connection closed by remote host" w,
       Raise (ConnectionResetError "Connection closed by remote host"))
  | Return data =>
      match decode data with
      | Raise e => (w, Raise e)
      | Return msg => route msg w
      end
  end.

(** *** [_listen], lines 42-51 *)

(** Lines 46-51: the record that the first matching [except] clause
    logs. *)
Definition except_clause (e : exn) : LogRecord :=
  match e with
  | ConnectionResetError _ => (DEBUG, "Connection closed by remote host")
  | CancelledError => (DEBUG, "Listening task cancelled")
  | e => (ERROR, "Error in listening task: " ++ exn_str e)
  end.

(** One turn of [while True: await self.receive()] inside the [try]: the
    loop goes on ([true]) when [receive] returns; an exception is taken
    by an [except] clause, which logs, and the coroutine ends
    ([false]). *)
Definition listen_iteration (rd : outcome bytes) (w : World) : World * bool :=
  match receive rd w with
  | (w', Return _) => (w', true)
  | (w', Raise e) =>
      (logger (except_clause e).1 (except_clause e).2 w', false)
  end.

(** The coroutine over the successive outcomes of its reads: [true] when
    it is still in the loop after them, [false] when it has returned
    (the outcomes left over are never read). *)
Fixpoint _listen (reads : list (outcome bytes)) (w : World) : World * bool :=
  match reads with
  | [] => (w, true)
  | rd :: reads' =>
      match listen_iteration rd w with
      | (w', true) => _listen reads' w'
      | (w', false) => (w', false)
      end
  end.

Definition after_iteration (t : nat) (r : World * bool) : World :=
  set_task t (if r.2 then TaskReading false else TaskFinished) r.1.

(** The event loop runs a step of task [t] that needs no input: the first
    step of the task, or the delivery of a requested cancellation.  A
    task cancelled before its first step never enters the coroutine. *)
Definition run_task (t : nat) (w : World) : option World :=
  match tasks w !! t with
  | Some (TaskScheduled true) => Some (set_task t TaskCancelled w)
  | Some (TaskScheduled false) => Some (set_task t (TaskReading false) w)
  | Some (TaskReading true) =>
      Some (after_iteration t (listen_iteration (Raise CancelledError) w))
  | _ => None
  end.

(** The read of the suspended task [t] completes with [data]. *)
Definition data_arrives (t : nat) (data : bytes) (w : World) : option World :=
  match tasks w !! t with
  | Some (TaskReading false) =>
      Some (after_iteration t (listen_iteration (Return data) w))
  | _ => None
  end.

(** *** [close], lines 79-89 *)

(** [Task.cancel()]: a request, and nothing on a task that is done. *)
Definition request_cancel (st : TaskState) : TaskState :=
  match st with
  | TaskScheduled _ => TaskScheduled true
  | TaskReading _ => TaskReading true
  | st => st
  end.

Definition task_cancel (t : nat) (w : World) : World :=
  set_tasks (alter request_cancel t (tasks w)) w.

(** [await self.listen_task]: [None] when [close] has to suspend. *)
Definition await_task (w : World) (t : nat) : option (outcome unit) :=
  match tasks w !! t with
  | Some TaskFinished => Some (Return tt)
  | Some TaskCancelled => Some (Raise CancelledError)
  | _ => None
  end.

(** Lines 87-89.  [wc] is how [await self.writer.wait_closed()]
    completes: it returns once the transport is closed, and it raises
    the exception the connection was lost with, if any.  Lines 87-88 have
    no handler: that exception leaves [close], and the record of line 89
    is not logged. *)
Definition close_stream (wc : outcome unit) (w : World)
  : World * outcome unit :=
  let w := writer_close w in
  match wc with
  | Raise e => (w, Raise e)
  | Return _ => (logger INFO "Connection closed" w, Return tt)
  end.

(** Lines 82-89 once the awaited task is done: a [CancelledError] is
    passed over, any other exception would leave [close]. *)
Definition close_after_await (r wc : outcome unit) (w : World)
  : World * outcome unit :=
  match r with
  | Return _ => close_stream wc w
  | Raise CancelledError => close_stream wc w
  | Raise e => (w, Raise e)
  end.

(** [close] up to its first suspension, or to its end ([wc] is used when
    this segment reaches line 88). *)
Definition close (wc : outcome unit) (w : World) : World :=
  match listen_task w with
  | Some t =>
      let w := task_cancel t w in
      match await_task w t with
      | Some r =>
          let (w', res) := close_after_await r wc w in
          set_closes (closes w' ++ [CloseCompleted res]) w'
      | None => set_closes (closes w ++ [CloseAwaitTask t]) w
      end
  | None =>
      let (w', res) := close_stream wc w in
      set_closes (closes w' ++ [CloseCompleted res]) w'
  end.

(** The event loop resumes invocation [k] of [close] once the task it
    awaits is done. *)
Definition close_resume (k : nat) (wc : outcome unit) (w : World)
  : option World :=
  match closes w !! k with
  | Some (CloseAwaitTask t) =>
      match await_task w t with
      | Some r =>
          let (w', res) := close_after_await r wc w in
          Some (set_closes (<[k := CloseCompleted res]> (closes w')) w')
      | None => None
      end
  | _ => None
  end.

(** ** Executions

    What callers, the event loop and the peer can do next.  [step] is
    [None] when the action is not possible in the state. *)
Inductive Action : Type :=
  | ASendCommand (message : string) (dr : outcome unit)
  | ATimer (c : nat)
  | AResume (c : nat)
  | ACancelCall (c : nat)
  | ASetEventCallback (callback : Callback)
  | AStartListening
  | ARunTask (t : nat)
  | AData (t : nat) (data : bytes)
  | AClose (wc : outcome unit)
  | ACloseResume (k : nat) (wc : outcome unit).

Definition step (a : Action) (w : World) : option World :=
  match a with
  | ASendCommand m dr => Some (send_command m dr w)
  | ATimer c => timer c w
  | AResume c => resume c w
  | ACancelCall c => cancel_call c w
  | ASetEventCallback cb => Some (set_event_callback cb w)
  | AStartListening => Some (start_listening w)
  | ARunTask t => run_task t w
  | AData t data => data_arrives t data w
  | AClose wc => Some (close wc w)
  | ACloseResume k wc => close_resume k wc w
  end.

Fixpoint run (acts : list Action) (w : World) : option World :=
  match acts with
  | [] => Some w
  | a :: acts' =>
      match step a w with
      | Some w' => run acts' w'
      | None => None
      end
  end.

(** The states of a connection: those an execution reaches from
    [__init__]. *)
Definition reachable (w : World) : Prop :=
  exists acts, run acts init = Some w.

End Operations.

(** ** A protocol to run the class on

    Modelled from the spec: [Encoder] (encoding.py) and [AnovaEvent]
    (event.py) are missing from the sources.  The spec fixes their
    contracts and leaves the byte transform and the event pattern open
    ("the protocol's required escaping/transform", "e.g., an event-tag
    prefix").  This instance takes the identity transform on 7-bit bytes
    with the terminator 0x16 appended by [encode] and dropped by [decode],
    a [DecodeError] for any other byte, the tag ["event "] as the event
    pattern, and an [EventParseError] for an event with nothing after its
    tag.  It serves to run the class on concrete inputs; every general
    theorem below holds for all protocols. *)
Module Sample.

Definition seven_bit (b : byte) : bool := (Byte.to_N b <? 128)%N.

(** Modelled from the spec: the frame terminator 0x16 of [Encoder], absent
    from the sources, is dropped from the end of a chunk. *)
Definition strip_terminator (raw : bytes) : bytes :=
  match reverse raw with
  | x16 :: body => reverse body
  | _ => raw
  end.

(** Modelled from the spec: [Encoder.encode], absent from the sources,
    "appends the single-byte frame terminator (0x16)"; the transform of
    the payload is the identity here. *)
Definition sample_encode (command : string) : bytes :=
  list_byte_of_string command ++ [x16].

(** Modelled from the spec: [Encoder.decode], absent from the sources,
    "reverses the encoding transform" and fails "with a DecodeError" on
    "malformed byte sequences", here the chunks with a byte above 0x7f. *)
Definition sample_decode (raw : bytes) : outcome string :=
  let body := strip_terminator raw in
  if forallb seven_bit body then Return (string_of_list_byte body)
  else Raise (Exception "DecodeError").

(** Modelled from the spec: [AnovaEvent.is_event], absent from the
    sources, recognises "an event-tag prefix", here ["event "]. *)
Definition sample_is_event (msg : string) : bool :=
  String.prefix "event " msg.

(** Modelled from the spec: [AnovaEvent.parse_event], absent from the
    sources, "fails with EventParseError on an event-shaped message whose
    fields don't parse", here an event with nothing after its tag; the
    event is the text after the tag. *)
Definition sample_parse_event (msg : string) : outcome string :=
  match String.substring 6 (String.length msg - 6) msg with
  | EmptyString => Raise (Exception "EventParseError")
  | body => Return body
  end.

Definition protocol : Protocol :=
  {| AnovaEvent := string;
     encode := sample_encode;
     decode := sample_decode;
     is_event := sample_is_event;
     parse_event := sample_parse_event |}.

(** The bytes of an ASCII text, as the peer sends them. *)
Definition wire (text : string) : bytes := list_byte_of_string text.

(** Event callbacks: one that completes, one that raises. *)
Definition quiet_callback : @Callback protocol := fun _ => Return tt.

Definition failing_callback : @Callback protocol :=
  fun _ => Raise (Exception "callback failed").

(** The state an execution from [__init__] ends in ([init] if the
    execution is not possible). *)
Definition exec (acts : list (@Action protocol)) : @World protocol :=
  default init (run acts init).

End Sample.

(** ** Vocabulary of the properties *)
Section Vocabulary.
Context {P : Protocol}.

(** The three kinds of decoded message, by the tests of lines 62 and 66
    in their order. *)
Inductive MessageClass : Type :=
  | InvalidNotice
  | EventMessage
  | ReplyMessage.

Definition classify (msg : string) : MessageClass :=
  if invalid_command msg then InvalidNotice
  else if is_event msg then EventMessage
  else ReplyMessage.

(** The exceptions that only the last clause of [_listen],
    [except Exception], takes. *)
Definition generic (e : exn) : bool :=
  match e with
  | ConnectionResetError _ | CancelledError => false
  | _ => true
  end.

(** The exception, if any, that decoding, event parsing or the event
    callback raises while [data] is processed in state [w]. *)
Definition cycle_exception (data : bytes) (w : World) : option exn :=
  match decode data with
  | Raise e => Some e
  | Return msg =>
      match classify msg, event_callback w with
      | EventMessage, Some callback =>
          match parse_event msg with
          | Raise e => Some e
          | Return ev =>
              match callback ev with
              | Raise e => Some e
              | Return _ => None
              end
          end
      | _, _ => None
      end
  end.

(** The exception, if any, that makes [receive] raise when its read
    completes with [rd]: the one thrown into the read, the
    [ConnectionResetError] of a zero-length read, or an exception of the
    processing. *)
Definition stop_cause (rd : outcome bytes) (w : World) : option exn :=
  match rd with
  | Raise e => Some e
  | Return [] =>
      Some (ConnectionResetError "Connection closed by remote host")
  | Return data => cycle_exception data w
  end.

(** Call [c] is suspended at one of its two [await]s. *)
Definition suspended (w : World) (c : nat) : Prop :=
  exists cl, calls w !! c = Some cl /\ forall r, at_ cl <> Completed r.

(** The steps of a call [c0] rewrite the state of that call, which was
    suspended; when they complete it, the slot is empty afterwards. *)
Definition call_step (c0 : nat) (w w' : World) : Prop :=
  suspended w c0 /\
  exists st, calls w' = alter (with_state st) c0 (calls w) /\
             (response_future w' = None \/ forall r, st <> Completed r).

(** Call [c] has completed. *)
Definition completed (w : World) (c : nat) : Prop :=
  exists m r, calls w !! c = Some {| message := m; at_ := Completed r |}.



(** A loop was started and no task is alive any more. *)
Definition listening_stopped (w : World) : Prop :=
  is_Some (listen_task w) /\ Forall (fun st => task_done st = true) (tasks w).

(** [w'] differs from [w] in nothing that the life cycle of the loop and
    of the stream depends on. *)
Definition same_lifecycle (w w' : World) : Prop :=
  listen_task w' = listen_task w /\ tasks w' = tasks w /\
  closes w' = closes w /\ closed (writer w') = closed (writer w).




(** From [w] to [w'] no event was handed to the callback and no future
    received a result. *)
Definition no_delivery (w w' : World) : Prop :=
  delivered w' = delivered w /\
  forall f r, futures w' !! f = Some (FutResult r) ->
              futures w !! f = Some (FutResult r).

(** The chunks that one call of [send_command] writes (lines 21-23). *)
Definition frame (message : string) : list bytes :=
  [encode message; [x16]].

(** The chunks of all the calls made so far, in the order of the calls. *)
Definition frames_sent (w : World) : list bytes :=
  flat_map (fun cl => frame (message cl)) (calls w).

(** The ways in which the [try] statement of [send_command] lets a call
    complete: with a string, with [CancelledError], or with the
    [TypeError] of awaiting [None]. *)
Definition call_outcome (r : outcome string) : Prop :=
  match r with
  | Return _ => True
  | Raise CancelledError => True
  | Raise (TypeError _) => True
  | Raise _ => False
  end.

(** What holds in every state of an execution. *)
Record wf (w : World) : Prop := {
  wf_no_task : listen_task w = None -> tasks w = [];
  wf_one_task : forall t, listen_task w = Some t ->
                  t = 0 /\ List.length (tasks w) = 1;
  wf_close_awaits : forall k t, closes w !! k = Some (CloseAwaitTask t) ->
                      listen_task w = Some t;
  wf_close_done : forall k r, closes w !! k = Some (CloseCompleted r) ->
                    closed (writer w) = true;
}.

End Vocabulary.

(** * Properties *)

Module StrFacts.
Import Str.

Lemma prefix_app (p s : string) :
  String.prefix p s = true <-> exists post, s = p ++ post.
Proof.
  revert s; induction p as [|c p IH]; intros s; simpl.
  - split; [intros _; exists s; reflexivity | intros _; destruct s; reflexivity].
  - destruct s as [|d s]; simpl.
    + split; [discriminate | intros [post H]; discriminate].
    + destruct (ascii_dec c d) as [->|Hne].
      * rewrite IH. split; intros [post H]; exists post; congruence.
      * split; [discriminate | intros [post H]; congruence].
Qed.

Lemma contains_app (pat s : string) :
  contains pat s = true <-> exists pre post, s = pre ++ pat ++ post.
Proof.
  induction s as [|c s IH]; cbn [contains].
  - rewrite orb_false_r, prefix_app. split.
    + intros [post H]. exists "", post. exact H.
    + intros [pre [post H]]. destruct pre; simpl in H; [|discriminate].
      exists post. exact H.
  - rewrite orb_true_iff, prefix_app, IH. split.
    + intros [[post H]|[pre [post H]]].
      * exists "", post. exact H.
      * exists (String c pre), post. simpl. congruence.
    + intros [pre [post H]]. destruct pre as [|d pre]; simpl in H.
      * left. exists post. exact H.
      * right. exists pre, post. congruence.
Qed.

Lemma lower_app (s t : string) : lower (s ++ t) = lower s ++ lower t.
Proof. induction s as [|c s IH]; simpl; congruence. Qed.

(** A split of the lowered text comes from a split of the text. *)
Lemma lower_split (s u v : string) :
  lower s = u ++ v -> exists a b, s = a ++ b /\ lower a = u /\ lower b = v.
Proof.
  revert u; induction s as [|c s IH]; intros u H; simpl in H.
  - destruct u; simpl in H; [|discriminate].
    exists "", "". repeat split. exact H.
  - destruct u as [|d u]; simpl in H.
    + exists "", (String c s). repeat split. exact H.
    + injection H as Hc Hs. destruct (IH _ Hs) as (a & b & -> & Ha & Hb).
      exists (String c a), b. simpl. repeat split; congruence.
Qed.

(** The test of line 62 decides containment up to case. *)
Lemma contains_lower (pat s : string) :
  contains pat (lower s) = true <-> contains_ci pat s.
Proof.
  rewrite contains_app. split.
  - intros (pre & post & H).
    destruct (lower_split _ _ _ H) as (a & b & -> & _ & Hb).
    destruct (lower_split _ _ _ Hb) as (m & p & -> & Hm & _).
    exists a, m, p. split; [reflexivity | exact Hm].
  - intros (pre & mid & post & -> & <-).
    exists (lower pre), (lower post). rewrite !lower_app. reflexivity.
Qed.

End StrFacts.

(** ** Routing of one message: [receive] *)
Section ReceiveProperties.
Context {P : Protocol}.
Implicit Types (w : World) (data : bytes) (msg : string).

Lemma classify_invalid msg :
  classify msg = InvalidNotice <-> invalid_command msg = true.
Proof.
  unfold classify. destruct (invalid_command msg), (is_event msg);
    intuition congruence.
Qed.

Lemma classify_event msg :
  classify msg = EventMessage <->
  invalid_command msg = false /\ is_event msg = true.
Proof.
  unfold classify. destruct (invalid_command msg), (is_event msg);
    intuition congruence.
Qed.

Lemma classify_reply msg :
  classify msg = ReplyMessage <->
  invalid_command msg = false /\ is_event msg = false.
Proof.
  unfold classify. destruct (invalid_command msg), (is_event msg);
    intuition congruence.
Qed.

Lemma invalid_command_ci msg :
  invalid_command msg = true <-> Str.contains_ci "invalid command" msg.
Proof. apply StrFacts.contains_lower. Qed.

Lemma receive_decoded data msg w :
  data <> [] -> decode data = Return msg ->
  receive (Return data) w = route msg w.
Proof.
  intros Hne Hdec. destruct data as [|b data]; [congruence|].
  unfold receive. rewrite Hdec. reflexivity.
Qed.

(** The routing, by the class of the message. *)
Lemma route_invalid msg w :
  classify msg = InvalidNotice ->
  route msg w =
    (logger ERROR ("Received invalid command, skipping: " ++ msg)
       (logger DEBUG ("Received message: " ++ msg) w), Return None).
Proof.
  intros H. apply classify_invalid in H. unfold route. rewrite H.
  reflexivity.
Qed.

Lemma route_event_no_callback msg w :
  classify msg = EventMessage -> event_callback w = None ->
  route msg w =
    (logger DEBUG ("Received message: " ++ msg) w, Return (Some msg)).
Proof.
  intros H Hcb. apply classify_event in H as [Hi He]. unfold route.
  rewrite Hi, He. simpl. rewrite Hcb. reflexivity.
Qed.

Lemma route_event_callback msg w (callback : Callback) :
  classify msg = EventMessage -> event_callback w = Some callback ->
  route msg w =
    let w1 := logger DEBUG ("Received message: " ++ msg) w in
    match parse_event msg with
    | Raise e => (w1, Raise e)
    | Return ev =>
        (set_delivered (delivered w1 ++ [ev]) w1,
         match callback ev with
         | Raise e => Raise e
         | Return _ => Return (Some msg)
         end)
    end.
Proof.
  intros H Hcb. apply classify_event in H as [Hi He]. unfold route.
  rewrite Hi, He. simpl. rewrite Hcb.
  destruct (parse_event msg) as [ev|e]; [|reflexivity].
  destruct (callback ev); reflexivity.
Qed.

Lemma route_reply_waiter msg w f :
  classify msg = ReplyMessage -> waiter w = Some f ->
  route msg w =
    (set_result f msg (logger DEBUG ("Received message: " ++ msg) w),
     Return (Some msg)).
Proof.
  intros H Hw. apply classify_reply in H as [Hi He]. unfold route.
  rewrite Hi, He.
  change (waiter (logger DEBUG ("Received message: " ++ msg) w))
    with (waiter w). rewrite Hw. reflexivity.
Qed.

Lemma route_reply_unexpected msg w :
  classify msg = ReplyMessage -> waiter w = None ->
  route msg w =
    (logger WARNING ("Received unexpected message: " ++ msg)
       (logger DEBUG ("Received message: " ++ msg) w),
     Return (Some msg)).
Proof.
  intros H Hw. apply classify_reply in H as [Hi He]. unfold route.
  rewrite Hi, He.
  change (waiter (logger DEBUG ("Received message: " ++ msg) w))
    with (waiter w). rewrite Hw. reflexivity.
Qed.

Lemma receive_undecoded data e w :
  data <> [] -> decode data = Raise e ->
  receive (Return data) w = (w, Raise e).
Proof.
  intros Hne Hdec. destruct data as [|b data]; [congruence|].
  unfold receive. rewrite Hdec. reflexivity.
Qed.

(** C5. A decoded message that contains "invalid command" in any case is
    dropped after logging: [receive] returns [None], no future is
    resolved (the futures, the slot and the calls in flight are as
    before), the event callback is not invoked, and the log receives the
    debug record of the message and the error record of the drop. *)
Theorem receive_drops_invalid_command data msg w :
  data <> [] ->
  decode data = Return msg ->
  Str.contains_ci "invalid command" msg ->
  (receive (Return data) w).2 = Return None /\
  futures (receive (Return data) w).1 = futures w /\
  response_future (receive (Return data) w).1 = response_future w /\
  calls (receive (Return data) w).1 = calls w /\
  delivered (receive (Return data) w).1 = delivered w /\
  log (receive (Return data) w).1 =
    (log w ++
     [(DEBUG, ("Received message: " ++ msg)%string);
      (ERROR, ("Received invalid command, skipping: " ++ msg)%string)])%list.
Proof.
  intros Hne Hdec Hci. apply invalid_command_ci, classify_invalid in Hci.
  rewrite (receive_decoded _ _ _ Hne Hdec), (route_invalid _ _ Hci).
  simpl. rewrite <- app_assoc. repeat split; reflexivity.
Qed.

(** C9. An event that arrives while no callback is registered is
    discarded without a trace beyond the debug record of the message: it
    is handed to nobody, no "unexpected message" warning is logged, no
    future is resolved even if a waiter is outstanding, and [receive]
    returns the decoded message. *)
Theorem receive_discards_event_without_callback data msg w :
  data <> [] ->
  decode data = Return msg ->
  classify msg = EventMessage ->
  event_callback w = None ->
  (receive (Return data) w).2 = Return (Some msg) /\
  delivered (receive (Return data) w).1 = delivered w /\
  futures (receive (Return data) w).1 = futures w /\
  response_future (receive (Return data) w).1 = response_future w /\
  calls (receive (Return data) w).1 = calls w /\
  log (receive (Return data) w).1 =
    (log w ++ [(DEBUG, ("Received message: " ++ msg)%string)])%list.
Proof.
  intros Hne Hdec Hcls Hcb.
  rewrite (receive_decoded _ _ _ Hne Hdec),
    (route_event_no_callback _ _ Hcls Hcb).
  simpl. repeat split; reflexivity.
Qed.

Lemma waiter_send_command (m : string) w :
  waiter (send_command m (Return tt) w) = Some (List.length (futures w)).
Proof.
  unfold waiter, send_command. simpl.
  rewrite lookup_app_r by reflexivity.
  rewrite Nat.sub_diag. reflexivity.
Qed.

Lemma resume_send_command (m : string) w :
  resume (List.length (calls w)) (send_command m (Return tt) w) = None.
Proof.
  unfold resume, send_command. simpl.
  rewrite lookup_app_r by reflexivity. rewrite Nat.sub_diag. simpl.
  rewrite lookup_app_r by reflexivity. rewrite Nat.sub_diag. reflexivity.
Qed.

(** Whether [receive] returns or raises on a chunk of bytes. *)
Lemma receive_outcome data w :
  data <> [] ->
  match cycle_exception data w with
  | Some e => (receive (Return data) w).2 = Raise e
  | None =>
      exists msg, decode data = Return msg /\
        (receive (Return data) w).2 =
          Return (if invalid_command msg then None else Some msg)
  end.
Proof.
  intros Hne. unfold cycle_exception.
  destruct (decode data) as [msg|e] eqn:Hdec;
    [|rewrite (receive_undecoded _ _ _ Hne Hdec); reflexivity].
  rewrite (receive_decoded _ _ _ Hne Hdec).
  destruct (classify msg) eqn:Hcls.
  - rewrite (route_invalid _ _ Hcls). apply classify_invalid in Hcls.
    destruct (event_callback w); exists msg; rewrite Hcls;
      split; reflexivity.
  - destruct (event_callback w) as [cb|] eqn:Hcb.
    + rewrite (route_event_callback _ _ _ Hcls Hcb).
      apply classify_event in Hcls as [Hinv _]. simpl.
      destruct (parse_event msg) as [ev|e]; [|reflexivity].
      destruct (cb ev) as [u|e]; [|reflexivity].
      exists msg. rewrite Hinv. split; reflexivity.
    + rewrite (route_event_no_callback _ _ Hcls Hcb).
      apply classify_event in Hcls as [Hinv _].
      exists msg. rewrite Hinv. split; reflexivity.
  - assert (Hret : (route msg w).2 = Return (Some msg)).
    { destruct (waiter w) as [f|] eqn:Hw.
      - rewrite (route_reply_waiter _ _ _ Hcls Hw). reflexivity.
      - rewrite (route_reply_unexpected _ _ Hcls Hw). reflexivity. }
    apply classify_reply in Hcls as [Hinv _].
    destruct (event_callback w); exists msg; rewrite Hinv;
      (split; [reflexivity | exact Hret]).
Qed.

(** [receive] raises exactly the exception [stop_cause] names. *)
Lemma receive_raises_iff (rd : outcome bytes) w e :
  (receive rd w).2 = Raise e <-> stop_cause rd w = Some e.
Proof.
  destruct rd as [data|e0]; [|simpl; split; congruence].
  destruct data as [|b data]; [simpl; split; congruence|].
  assert (Hne : b :: data <> []) by discriminate.
  pose proof (receive_outcome (b :: data) w Hne) as H.
  change (stop_cause (Return (b :: data)) w)
    with (cycle_exception (b :: data) w).
  destruct (cycle_exception (b :: data) w) as [e1|].
  - rewrite H. split; congruence.
  - destruct H as (msg & _ & ->). split; [|discriminate].
    destruct (invalid_command msg); discriminate.
Qed.

Lemma receive_returns_iff (rd : outcome bytes) w :
  (exists v, (receive rd w).2 = Return v) <-> stop_cause rd w = None.
Proof.
  destruct (stop_cause rd w) as [e|] eqn:Hc.
  - apply receive_raises_iff in Hc. rewrite Hc.
    split; [intros [v Hv]; discriminate | discriminate].
  - split; [reflexivity|]. intros _.
    destruct ((receive rd w).2) as [v|e] eqn:Hr; [eauto|].
    apply receive_raises_iff in Hr. congruence.
Qed.

(** C4, as the code has it.  A zero-length read makes [receive] raise
    [ConnectionResetError].  Otherwise [receive] processes that one
    chunk: an exception of [decode], [parse_event] or the event callback
    leaves [receive] as it is; without one, [receive] returns the decoded
    message, or [None] for an invalid-command notice.  A reply that finds
    a waiter resolves it; a reply that finds none is logged as unexpected
    and changes nothing else, and the next [send_command] (one that gets
    past its writes) has to wait for a reply of its own. *)
Theorem receive_cycle w :
  receive (Return []) w =
    (logger ERROR "Connection closed by remote host" w,
     Raise (ConnectionResetError "Connection closed by remote host")) /\
  (forall data, data <> [] ->
     match cycle_exception data w with
     | Some e => (receive (Return data) w).2 = Raise e
     | None =>
         exists msg, decode data = Return msg /\
           (receive (Return data) w).2 =
             Return (if invalid_command msg then None else Some msg)
     end) /\
  (forall data msg f, data <> [] -> decode data = Return msg ->
     classify msg = ReplyMessage -> waiter w = Some f ->
     receive (Return data) w =
       (set_result f msg (logger DEBUG ("Received message: " ++ msg) w),
        Return (Some msg))) /\
  (forall data msg, data <> [] -> decode data = Return msg ->
     classify msg = ReplyMessage -> waiter w = None ->
     receive (Return data) w =
       (logger WARNING ("Received unexpected message: " ++ msg)
          (logger DEBUG ("Received message: " ++ msg) w),
        Return (Some msg)) /\
     forall m,
       let w1 := (receive (Return data) w).1 in
       waiter (send_command m (Return tt) w1)
         = Some (List.length (futures w)) /\
       resume (List.length (calls w)) (send_command m (Return tt) w1)
         = None).
Proof.
  split; [reflexivity|]. split; [|split].
  - intros data Hne. apply (receive_outcome data w Hne).
  - intros data msg f Hne Hdec Hcls Hw.
    rewrite (receive_decoded _ _ _ Hne Hdec).
    apply (route_reply_waiter _ _ _ Hcls Hw).
  - intros data msg Hne Hdec Hcls Hw.
    assert (Heq : receive (Return data) w =
              (logger WARNING ("Received unexpected message: " ++ msg)
                 (logger DEBUG ("Received message: " ++ msg) w),
               Return (Some msg))).
    { rewrite (receive_decoded _ _ _ Hne Hdec).
      apply (route_reply_unexpected _ _ Hcls Hw). }
    split; [exact Heq|]. intros m w1. subst w1. rewrite Heq.
    split; [exact (waiter_send_command m _) | exact (resume_send_command m _)].
Qed.

End ReceiveProperties.

(** ** The background receive loop: [_listen] *)
Section ListenProperties.
Context {P : Protocol}.
Implicit Types (w : World) (data : bytes) (msg : string).

(** [receive] touches the log, the futures and the record of delivered
    events, and nothing else. *)
Lemma receive_frame (rd : outcome bytes) w :
  listen_task (receive rd w).1 = listen_task w /\
  tasks (receive rd w).1 = tasks w /\
  closes (receive rd w).1 = closes w /\
  writer (receive rd w).1 = writer w /\
  calls (receive rd w).1 = calls w /\
  response_future (receive rd w).1 = response_future w /\
  event_callback (receive rd w).1 = event_callback w.
Proof.
  unfold receive, route. repeat case_match; simpl; repeat split; reflexivity.
Qed.

Lemma listen_iteration_world (rd : outcome bytes) w :
  (listen_iteration rd w).1 =
    match (receive rd w).2 with
    | Return _ => (receive rd w).1
    | Raise e => logger (except_clause e).1 (except_clause e).2 (receive rd w).1
    end.
Proof.
  unfold listen_iteration. destruct (receive rd w) as [w' [v|e]]; reflexivity.
Qed.

Lemma listen_iteration_flag (rd : outcome bytes) w :
  (listen_iteration rd w).2 =
    match (receive rd w).2 with
    | Return _ => true
    | Raise _ => false
    end.
Proof.
  unfold listen_iteration. destruct (receive rd w) as [w' [v|e]]; reflexivity.
Qed.

Lemma listen_iteration_frame (rd : outcome bytes) w :
  listen_task (listen_iteration rd w).1 = listen_task w /\
  tasks (listen_iteration rd w).1 = tasks w /\
  closes (listen_iteration rd w).1 = closes w /\
  writer (listen_iteration rd w).1 = writer w /\
  calls (listen_iteration rd w).1 = calls w /\
  response_future (listen_iteration rd w).1 = response_future w /\
  event_callback (listen_iteration rd w).1 = event_callback w.
Proof.
  rewrite listen_iteration_world.
  destruct (receive_frame rd w) as (H1 & H2 & H3 & H4 & H5 & H6 & H7).
  destruct ((receive rd w).2); simpl; repeat split; assumption.
Qed.

Lemma listen_iteration_stops (rd : outcome bytes) w :
  (listen_iteration rd w).2 = false <-> is_Some (stop_cause rd w).
Proof.
  rewrite listen_iteration_flag.
  destruct ((receive rd w).2) as [v|e] eqn:Hr.
  - assert (Hn : stop_cause rd w = None) by (apply receive_returns_iff; eauto).
    rewrite Hn. split; [discriminate | intros [x Hx]; discriminate].
  - apply receive_raises_iff in Hr. rewrite Hr. split; eauto.
Qed.

Lemma listen_iteration_raised (rd : outcome bytes) w e :
  stop_cause rd w = Some e ->
  listen_iteration rd w =
    (logger (except_clause e).1 (except_clause e).2 (receive rd w).1, false).
Proof.
  intros Hc. apply receive_raises_iff in Hc. unfold listen_iteration.
  destruct (receive rd w) as [w' r]. simpl in Hc. subst r. reflexivity.
Qed.

Lemma except_clause_generic e :
  generic e = true ->
  except_clause e = (ERROR, "Error in listening task: " ++ exn_str e).
Proof. destruct e; simpl; congruence. Qed.

(** The coroutine returns at the first read whose processing raises. *)
Lemma _listen_returned (reads : list (outcome bytes)) w :
  (_listen reads w).2 = false ->
  exists pre rd post w1,
    reads = (pre ++ rd :: post)%list /\
    _listen pre w = (w1, true) /\
    is_Some (stop_cause rd w1) /\
    _listen reads w = listen_iteration rd w1.
Proof.
  revert w. induction reads as [|rd reads IH]; intros w H; [discriminate|].
  simpl in H |- *.
  destruct (listen_iteration rd w) as [w' [|]] eqn:Hit.
  - destruct (IH w' H) as (pre & rd' & post & w1 & -> & Hpre & Hc & Heq).
    exists (rd :: pre), rd', post, w1. simpl. rewrite Hit.
    repeat split; assumption.
  - exists [], rd, reads, w. simpl. repeat split; [|congruence].
    apply listen_iteration_stops. rewrite Hit. reflexivity.
Qed.

(** C3, as the code has it.  A turn of the loop ends the coroutine
    exactly when [receive] raises: on a zero-length read, on the
    cancellation of the read, and on any exception of [decode],
    [parse_event] or the event callback; the exceptions that are neither
    [ConnectionResetError] nor [CancelledError] are logged as errors by
    the last [except] clause.  The coroutine [_listen] returns only at
    such a turn.  An unexpected message (a reply with no unresolved
    waiter) is logged and the loop goes on. *)
Theorem listen_ends_iff_receive_raises (rd : outcome bytes) w :
  ((listen_iteration rd w).2 = false <-> is_Some (stop_cause rd w)) /\
  (forall e, stop_cause rd w = Some e -> generic e = true ->
     listen_iteration rd w =
       (logger ERROR ("Error in listening task: " ++ exn_str e)
          (receive rd w).1, false)) /\
  (forall reads, (_listen reads w).2 = false ->
     exists pre rd' post w1,
       reads = (pre ++ rd' :: post)%list /\
       _listen pre w = (w1, true) /\
       is_Some (stop_cause rd' w1)) /\
  (forall data msg, rd = Return data -> data <> [] ->
     decode data = Return msg -> classify msg = ReplyMessage ->
     waiter w = None ->
     listen_iteration rd w =
       (logger WARNING ("Received unexpected message: " ++ msg)
          (logger DEBUG ("Received message: " ++ msg) w), true)).
Proof.
  split; [apply listen_iteration_stops|]. split; [|split].
  - intros e Hc Hg. rewrite (listen_iteration_raised _ _ _ Hc).
    rewrite (except_clause_generic _ Hg). reflexivity.
  - intros reads H.
    destruct (_listen_returned reads w H)
      as (pre & rd' & post & w1 & H1 & H2 & H3 & _).
    exists pre, rd', post, w1. repeat split; assumption.
  - intros data msg -> Hne Hdec Hcls Hw. unfold listen_iteration.
    rewrite (receive_decoded _ _ _ Hne Hdec),
      (route_reply_unexpected _ _ Hcls Hw). reflexivity.
Qed.

End ListenProperties.

(** ** Executions: what every reachable state satisfies *)
Section Invariants.
Context {P : Protocol}.
Implicit Types (w : World) (a : Action).

Lemma wf_init : wf init.
Proof. split; simpl; intros; try done; by rewrite lookup_nil in *. Qed.

Lemma wf_same_lifecycle w w' : wf w -> same_lifecycle w w' -> wf w'.
Proof.
  intros [H1 H2 H3 H4] (Hl & Ht & Hc & Hw).
  split; rewrite ?Hl, ?Ht, ?Hc, ?Hw; assumption.
Qed.

Lemma set_call_lifecycle c st w : same_lifecycle w (set_call c st w).
Proof. repeat split. Qed.

Lemma complete_lifecycle c r w : same_lifecycle w (complete c r w).
Proof. repeat split. Qed.

Lemma send_command_lifecycle m dr w :
  same_lifecycle w (send_command m dr w).
Proof. destruct dr; repeat split. Qed.

Lemma on_timeout_lifecycle c m w : same_lifecycle w (on_timeout c m w).
Proof. unfold on_timeout. repeat case_match; repeat split. Qed.

Lemma timer_lifecycle c w w' : timer c w = Some w' -> same_lifecycle w w'.
Proof.
  unfold timer. intros H. repeat case_match; simplify_eq. repeat split.
Qed.

Lemma resume_lifecycle c w w' : resume c w = Some w' -> same_lifecycle w w'.
Proof.
  unfold resume. intros H. repeat case_match; simplify_eq;
    first [apply on_timeout_lifecycle | repeat split].
Qed.

Lemma cancel_call_lifecycle c w w' :
  cancel_call c w = Some w' -> same_lifecycle w w'.
Proof.
  unfold cancel_call. intros H. repeat case_match; simplify_eq; repeat split.
Qed.

(** A step of the listen task replaces the state of that task. *)
Lemma after_iteration_frame t (rd : outcome bytes) w :
  let w' := after_iteration t (listen_iteration rd w) in
  listen_task w' = listen_task w /\
  tasks w' = <[t := if (listen_iteration rd w).2 then TaskReading false
                    else TaskFinished]> (tasks w) /\
  closes w' = closes w /\ writer w' = writer w /\
  calls w' = calls w /\ response_future w' = response_future w.
Proof.
  destruct (listen_iteration_frame rd w) as (H1 & H2 & H3 & H4 & H5 & H6 & _).
  unfold after_iteration. simpl. rewrite H2. repeat split; assumption.
Qed.

Lemma wf_set_task t st w w' :
  wf w -> listen_task w' = listen_task w -> tasks w' = <[t := st]> (tasks w) ->
  closes w' = closes w -> writer w' = writer w -> wf w'.
Proof.
  intros [H1 H2 H3 H4] Hl Ht Hc Hw.
  split; rewrite ?Hl, ?Ht, ?Hc, ?Hw; try assumption.
  - intros Hn. rewrite (H1 Hn). reflexivity.
  - intros t0 Hs. rewrite length_insert. apply (H2 _ Hs).
Qed.

Lemma close_stream_shape wc w :
  closed (writer (close_stream wc w).1) = true /\
  listen_task (close_stream wc w).1 = listen_task w /\
  tasks (close_stream wc w).1 = tasks w /\
  closes (close_stream wc w).1 = closes w /\
  calls (close_stream wc w).1 = calls w /\
  futures (close_stream wc w).1 = futures w /\
  delivered (close_stream wc w).1 = delivered w /\
  response_future (close_stream wc w).1 = response_future w /\
  written (writer (close_stream wc w).1) = written (writer w) /\
  (close_stream wc w).2 = wc.
Proof. destruct wc as [[]|e]; repeat split. Qed.

Lemma await_task_done w t r :
  await_task w t = Some r ->
  (forall wc, close_after_await r wc w = close_stream wc w) /\
  exists st, tasks w !! t = Some st /\ task_done st = true.
Proof.
  unfold await_task. intros H. repeat case_match; simplify_eq;
    (split; [reflexivity | eexists; split; [done | reflexivity]]).
Qed.

(** The state and the list of invocations after the last lines of
    [close]. *)
Lemma wf_after_close_stream wc w w' (cls : list CloseState) :
  wf w ->
  w' = set_closes cls (close_stream wc w).1 ->
  (forall k t, cls !! k = Some (CloseAwaitTask t) ->
     closes w !! k = Some (CloseAwaitTask t)) ->
  wf w'.
Proof.
  intros [H1 H2 H3 H4] -> Hcls.
  destruct (close_stream_shape wc w) as (Hc & Hl & Ht & _).
  split; simpl; rewrite ?Hl, ?Ht; try done.
  intros k t Hk. apply Hcls in Hk. eauto.
Qed.

Lemma wf_start_listening w : wf w -> wf (start_listening w).
Proof.
  intros Hwf. unfold start_listening.
  destruct (listen_task w) as [t|] eqn:Hl; [assumption|].
  destruct Hwf as [H1 H2 H3 H4]. rewrite (H1 Hl).
  split; simpl.
  - discriminate.
  - intros t [= <-]. done.
  - intros k t Hk. apply H3 in Hk. congruence.
  - assumption.
Qed.

Lemma wf_task_cancel t w : wf w -> wf (task_cancel t w).
Proof.
  intros [H1 H2 H3 H4]. split; simpl; rewrite ?length_alter; try done.
  intros Hn. by rewrite (H1 Hn).
Qed.

Lemma wf_close wc w : wf w -> wf (close wc w).
Proof.
  intros Hwf. pose proof (wf_task_cancel) as Hwfc.
  pose proof Hwf as [H1 H2 H3 H4]. unfold close.
  destruct (listen_task w) as [t|] eqn:Hl.
  - destruct (await_task (task_cancel t w) t) as [r|] eqn:Ha.
    + destruct (await_task_done _ _ _ Ha) as [Hc _]. rewrite Hc.
      assert (Hwf' : wf (task_cancel t w)) by (by apply Hwfc).
      destruct (close_stream wc (task_cancel t w)) as [w' res] eqn:Hcs.
      eapply (wf_after_close_stream wc (task_cancel t w)); [exact Hwf'| |].
      * rewrite Hcs. reflexivity.
      * intros k t0 Hk. simpl.
        replace w' with (close_stream wc (task_cancel t w)).1 in Hk
          by (by rewrite Hcs).
        destruct (close_stream_shape wc (task_cancel t w))
          as (_ & _ & _ & Hcl & _).
        rewrite Hcl in Hk. simpl in Hk.
        apply lookup_snoc_Some in Hk as [[_ Hk]|[_ Hk]];
          [done | discriminate].
    + split; simpl; rewrite ?Hl, ?length_alter; try done.
      * intros k t0 Hk. apply lookup_snoc_Some in Hk as [[_ Hk]|[_ Hk]];
          [eauto | by simplify_eq].
      * intros k r0 Hk. apply lookup_snoc_Some in Hk as [[_ Hk]|[_ Hk]];
          [eauto | discriminate].
  - destruct (close_stream wc w) as [w' res] eqn:Hcs.
    eapply (wf_after_close_stream wc w); [exact Hwf| |].
    + rewrite Hcs. reflexivity.
    + intros k t0 Hk.
      replace w' with (close_stream wc w).1 in Hk by (by rewrite Hcs).
      destruct (close_stream_shape wc w) as (_ & _ & _ & Hcl & _).
      rewrite Hcl in Hk.
      apply lookup_snoc_Some in Hk as [[_ Hk]|[_ Hk]];
        [done | discriminate].
Qed.

Lemma wf_close_resume k wc w w' :
  wf w -> close_resume k wc w = Some w' -> wf w'.
Proof.
  intros Hwf. unfold close_resume.
  destruct (closes w !! k) as [[t|r]|] eqn:Hk; try discriminate.
  destruct (await_task w t) as [r|] eqn:Ha; [|discriminate].
  destruct (await_task_done _ _ _ Ha) as [Hc _]. rewrite Hc.
  destruct (close_stream wc w) as [w1 res] eqn:Hcs. intros [= <-].
  eapply (wf_after_close_stream wc w); [exact Hwf| |].
  - rewrite Hcs. reflexivity.
  - intros k0 t0 Hk0.
    replace w1 with (close_stream wc w).1 in Hk0 by (by rewrite Hcs).
    destruct (close_stream_shape wc w) as (_ & _ & _ & Hcl & _).
    rewrite Hcl in Hk0.
    apply list_lookup_insert_Some in Hk0 as [(_ & ? & _)|[_ Hk0]];
      [discriminate | done].
Qed.

Lemma wf_step a w w' : wf w -> step a w = Some w' -> wf w'.
Proof.
  intros Hwf. destruct a; simpl; intros H.
  - simplify_eq. eapply wf_same_lifecycle, send_command_lifecycle; done.
  - eapply wf_same_lifecycle, timer_lifecycle; done.
  - eapply wf_same_lifecycle, resume_lifecycle; done.
  - eapply wf_same_lifecycle, cancel_call_lifecycle; done.
  - simplify_eq. eapply wf_same_lifecycle; [done | repeat split].
  - simplify_eq. by apply wf_start_listening.
  - unfold run_task in H. repeat case_match; simplify_eq.
    + eapply wf_set_task; [done | reflexivity..].
    + eapply wf_set_task; [done | reflexivity..].
    + destruct (after_iteration_frame t (Raise CancelledError) w)
        as (? & ? & ? & ? & _). eapply wf_set_task; done.
  - unfold data_arrives in H. repeat case_match; simplify_eq.
    destruct (after_iteration_frame t (Return data) w)
      as (? & ? & ? & ? & _). eapply wf_set_task; done.
  - simplify_eq. by apply wf_close.
  - by eapply wf_close_resume.
Qed.

Lemma wf_run acts w w' : wf w -> run acts w = Some w' -> wf w'.
Proof.
  revert w. induction acts as [|a acts IH]; intros w Hwf H; simpl in H.
  - by simplify_eq.
  - destruct (step a w) as [w1|] eqn:Hs; [|discriminate].
    eapply IH; [|exact H]. by eapply wf_step.
Qed.

Lemma reachable_wf w : reachable w -> wf w.
Proof. intros [acts H]. eapply wf_run; [apply wf_init | exact H]. Qed.

Lemma run_app acts1 acts2 w :
  run (acts1 ++ acts2) w =
    match run acts1 w with
    | Some w1 => run acts2 w1
    | None => None
    end.
Proof.
  revert w. induction acts1 as [|a acts1 IH]; intros w; simpl; [done|].
  destruct (step a w); [apply IH | done].
Qed.

Lemma reachable_run acts w w' :
  reachable w -> run acts w = Some w' -> reachable w'.
Proof.
  intros [acts0 H0] H. exists (acts0 ++ acts)%list.
  rewrite run_app, H0. exact H.
Qed.

End Invariants.

(** ** Once the loop has ended *)
Section Stopped.
Context {P : Protocol}.
Implicit Types (w : World) (a : Action).

Lemma no_delivery_refl w : no_delivery w w.
Proof. split; auto. Qed.

Lemma no_delivery_trans w1 w2 w3 :
  no_delivery w1 w2 -> no_delivery w2 w3 -> no_delivery w1 w3.
Proof. intros [H1 H2] [H3 H4]. split; [congruence | auto]. Qed.

Lemma no_delivery_same w w' :
  delivered w' = delivered w -> futures w' = futures w -> no_delivery w w'.
Proof. intros Hd Hf. split; [done | by rewrite Hf]. Qed.

Lemma no_delivery_cancel f w w' :
  delivered w' = delivered w ->
  futures w' = <[f := FutCancelled]> (futures w) -> no_delivery w w'.
Proof.
  intros Hd Hf. split; [done|]. intros f0 r. rewrite Hf.
  intros [(_ & ? & _)|[_ H]]%list_lookup_insert_Some; [discriminate | done].
Qed.

Lemma on_timeout_futures c m w :
  futures (on_timeout c m w) = futures w /\
  delivered (on_timeout c m w) = delivered w.
Proof. unfold on_timeout. repeat case_match; split; reflexivity. Qed.

Lemma stopped_no_live_task w t st :
  listening_stopped w -> tasks w !! t = Some st -> task_done st = true.
Proof. intros [_ H] Ht. exact (Forall_lookup_1 _ _ _ _ H Ht). Qed.

Lemma stopped_same_lifecycle w w' :
  listening_stopped w -> same_lifecycle w w' -> listening_stopped w'.
Proof. intros [H1 H2] (Hl & Ht & _). split; by rewrite ?Hl, ?Ht. Qed.

Lemma send_command_no_delivery m dr w :
  no_delivery w (send_command m dr w).
Proof.
  destruct dr as [[]|e]; [|by apply no_delivery_same].
  split; [done|]. simpl.
  intros f r [[_ ?]|[_ ?]]%lookup_snoc_Some; [done | discriminate].
Qed.

Lemma timer_no_delivery c w w' : timer c w = Some w' -> no_delivery w w'.
Proof.
  unfold timer. intros H. repeat case_match; simplify_eq.
  by eapply no_delivery_cancel.
Qed.

Lemma resume_no_delivery c w w' : resume c w = Some w' -> no_delivery w w'.
Proof.
  unfold resume. intros H. repeat case_match; simplify_eq;
    try (by apply no_delivery_same).
  match goal with
  | |- no_delivery _ (on_timeout ?c ?m ?w) =>
      destruct (on_timeout_futures c m w)
  end.
  by apply no_delivery_same.
Qed.

Lemma cancel_call_no_delivery c w w' :
  cancel_call c w = Some w' -> no_delivery w w'.
Proof.
  unfold cancel_call. intros H. repeat case_match; simplify_eq;
    by eapply no_delivery_cancel.
Qed.

Lemma stopped_step a w w' :
  listening_stopped w -> step a w = Some w' ->
  listening_stopped w' /\ no_delivery w w'.
Proof.
  intros Hs. pose proof Hs as [Hl Hd]. destruct a; simpl; intros H.
  - simplify_eq.
    split; [eapply stopped_same_lifecycle, send_command_lifecycle; done
           | apply send_command_no_delivery].
  - split; [eapply stopped_same_lifecycle, timer_lifecycle; done
           | by eapply timer_no_delivery].
  - split; [eapply stopped_same_lifecycle, resume_lifecycle; done
           | by eapply resume_no_delivery].
  - split; [eapply stopped_same_lifecycle, cancel_call_lifecycle; done
           | by eapply cancel_call_no_delivery].
  - simplify_eq. split; [exact Hs | by apply no_delivery_same].
  - simplify_eq. unfold start_listening. destruct Hl as [t Hl].
    rewrite Hl. split; [exact Hs | apply no_delivery_refl].
  - unfold run_task in H. repeat case_match; simplify_eq;
      by match goal with
         | Ht : tasks w !! _ = Some _ |- _ =>
             pose proof (stopped_no_live_task _ _ _ Hs Ht)
         end.
  - unfold data_arrives in H. repeat case_match; simplify_eq;
      by match goal with
         | Ht : tasks w !! _ = Some _ |- _ =>
             pose proof (stopped_no_live_task _ _ _ Hs Ht)
         end.
  - simplify_eq. unfold close. destruct Hl as [t Hl]. rewrite Hl.
    assert (Hd' : Forall (fun st => task_done st = true)
                    (alter request_cancel t (tasks w))).
    { apply Forall_alter; [done|]. intros st _ Hst. by destruct st. }
    assert (Hs' : listening_stopped (task_cancel t w)).
    { split; [simpl; rewrite Hl; by eexists | exact Hd']. }
    destruct (await_task (task_cancel t w) t) as [r|] eqn:Ha.
    + destruct (await_task_done _ _ _ Ha) as [Hc _]. rewrite Hc.
      destruct wc as [[]|e];
        (split; [exact Hs' | by apply no_delivery_same]).
    + split; [exact Hs' | by apply no_delivery_same].
  - unfold close_resume in H.
    destruct (closes w !! k) as [[t|r]|]; try discriminate.
    destruct (await_task w t) as [r|] eqn:Ha; [|discriminate].
    destruct (await_task_done _ _ _ Ha) as [Hc _]. rewrite Hc in H.
    destruct wc as [[]|e]; simpl in H; simplify_eq;
      (split; [exact Hs | by apply no_delivery_same]).
Qed.

(** Nothing restarts the loop: once every task is done, no later step
    of any execution delivers an event or resolves a future. *)
Lemma stopped_run acts w w' :
  listening_stopped w -> run acts w = Some w' ->
  listening_stopped w' /\ no_delivery w w'.
Proof.
  revert w. induction acts as [|a acts IH]; intros w Hs H; simpl in H.
  - simplify_eq. split; [done | apply no_delivery_refl].
  - destruct (step a w) as [w1|] eqn:Hst; [|discriminate].
    destruct (stopped_step _ _ _ Hs Hst) as [Hs1 Hn1].
    destruct (IH _ Hs1 H) as [Hs' Hn']. split; [done|].
    by eapply no_delivery_trans.
Qed.

End Stopped.

(** ** A failing event callback *)
Section CallbackFailure.
Context {P : Protocol}.
Implicit Types (w : World) (data : bytes) (msg : string).

Lemma stopped_no_data w t data :
  listening_stopped w -> data_arrives t data w = None.
Proof.
  intros Hs. unfold data_arrives.
  destruct (tasks w !! t) as [st|] eqn:Ht; [|done].
  pose proof (stopped_no_live_task _ _ _ Hs Ht). by destruct st as [[]|[]| |].
Qed.

Lemma single_task_finished w w' t :
  wf w -> listen_task w = Some t ->
  listen_task w' = listen_task w ->
  tasks w' = <[t := TaskFinished]> (tasks w) ->
  listening_stopped w'.
Proof.
  intros Hwf Hl Hl' Ht'. destruct (wf_one_task _ Hwf _ Hl) as [-> Hlen].
  split; [rewrite Hl', Hl; by eexists|]. rewrite Ht'.
  destruct (tasks w) as [|st [|? ?]]; simplify_eq/=.
  by repeat constructor.
Qed.


End CallbackFailure.

(** ** The reply slot: [send_command] *)
Section SendCommandProperties.
Context {P : Protocol}.
Implicit Types (w : World) (a : Action) (data : bytes) (msg : string).

Lemma on_timeout_shape c0 m w :
  exists st, calls (on_timeout c0 m w) = alter (with_state st) c0 (calls w) /\
             (response_future (on_timeout c0 m w) = None \/
              forall r, st <> Completed r).
Proof.
  unfold on_timeout. repeat case_match;
    (eexists; split; [reflexivity|]); first [by left | by right].
Qed.

Lemma timer_call_step c0 w w' : timer c0 w = Some w' -> call_step c0 w w'.
Proof.
  unfold timer. intros H. repeat case_match; simplify_eq. split.
  - eexists. split; [done|]. done.
  - eexists. split; [reflexivity|]. by right.
Qed.

Lemma resume_call_step c0 w w' : resume c0 w = Some w' -> call_step c0 w w'.
Proof.
  unfold resume. intros H. repeat case_match; simplify_eq;
    (split; [eexists; split; [done|]; done |]);
    first [apply on_timeout_shape
          | eexists; split; [reflexivity|]; by left].
Qed.

Lemma cancel_call_step c0 w w' :
  cancel_call c0 w = Some w' -> call_step c0 w w'.
Proof.
  unfold cancel_call. intros H. repeat case_match; simplify_eq;
    (split; [eexists; split; [done|]; done |]);
    eexists; (split; [reflexivity|]); by left.
Qed.

Lemma close_calls wc w : calls (close wc w) = calls w.
Proof.
  unfold close, close_after_await, close_stream.
  repeat case_match; simplify_eq; reflexivity.
Qed.

Lemma close_resume_calls k wc w w' :
  close_resume k wc w = Some w' -> calls w' = calls w.
Proof.
  unfold close_resume, close_after_await, close_stream. intros H.
  repeat case_match; simplify_eq; reflexivity.
Qed.

Lemma send_command_calls m dr w :
  calls (send_command m dr w) =
    (calls w ++
     [{| message := m;
         at_ := match dr with
                | Return _ => InWaitFor (List.length (futures w)) false
                | Raise e => Completed (Raise e)
                end |}])%list.
Proof. by destruct dr. Qed.

Lemma run_task_calls t w w' : run_task t w = Some w' -> calls w' = calls w.
Proof.
  unfold run_task. intros H. repeat case_match; simplify_eq; reflexivity.
Qed.

Lemma data_arrives_calls t data w w' :
  data_arrives t data w = Some w' -> calls w' = calls w.
Proof.
  unfold data_arrives. intros H. repeat case_match; simplify_eq.
  by destruct (after_iteration_frame t (Return data) w)
    as (_ & _ & _ & _ & ? & _).
Qed.

(** What a step does to the calls in flight. *)
Lemma step_calls a w w' :
  step a w = Some w' ->
  calls w' = calls w \/
  (exists m dr, a = ASendCommand m dr /\ w' = send_command m dr w) \/
  (exists c0, call_step c0 w w').
Proof.
  destruct a; simpl; intros H.
  - right; left. eexists _, _. split; [reflexivity | congruence].
  - right; right. eexists. by apply timer_call_step.
  - right; right. eexists. by apply resume_call_step.
  - right; right. eexists. by apply cancel_call_step.
  - left. by simplify_eq.
  - left. simplify_eq. unfold start_listening. by case_match.
  - left. by eapply run_task_calls.
  - left. by eapply data_arrives_calls.
  - left. simplify_eq. apply close_calls.
  - left. by eapply close_resume_calls.
Qed.

(** A completed call keeps its outcome. *)
Lemma step_completed_stable a w w' c cl r :
  step a w = Some w' ->
  calls w !! c = Some cl -> at_ cl = Completed r ->
  calls w' !! c = Some cl.
Proof.
  intros Hs Hc Hr.
  destruct (step_calls _ _ _ Hs)
    as [->|[(m & dr & _ & ->)|(c0 & Hsus & st & -> & _)]].
  - done.
  - rewrite send_command_calls. by apply lookup_app_l_Some.
  - destruct (decide (c0 = c)) as [->|Hne].
    + destruct Hsus as (cl' & Hc' & Hn). simplify_eq. by destruct (Hn r).
    + by rewrite list_lookup_alter_ne.
Qed.

Lemma run_completed_stable acts w w' c cl r :
  run acts w = Some w' ->
  calls w !! c = Some cl -> at_ cl = Completed r ->
  calls w' !! c = Some cl.
Proof.
  revert w. induction acts as [|a acts IH]; intros w H Hc Hr; simpl in H.
  - by simplify_eq.
  - destruct (step a w) as [w1|] eqn:Hs; [|discriminate].
    eapply IH; [exact H | | exact Hr].
    by eapply step_completed_stable.
Qed.

(** C6, as the code has it.  Whatever step of whatever execution
    completes a call of [send_command], one of two things holds.  Either
    the call was suspended inside the [try] statement, with its waiter
    installed -- it returns a reply, returns after its timeout, or raises
    -- and the slot [response_future] is [None] in the state in which it
    has completed: every way out of the [try] statement goes through the
    [finally] clause.  Or the call is one whose [drain] raises: it
    completes with that exception before the [try] statement, has
    created no future, and leaves the slot as it found it. *)
Theorem send_command_clears_slot a w w' c :
  step a w = Some w' ->
  ~ completed w c ->
  completed w' c ->
  (suspended w c /\ response_future w' = None) \/
  (exists m e,
     a = ASendCommand m (Raise e) /\
     c = List.length (calls w) /\
     calls w' !! c = Some {| message := m; at_ := Completed (Raise e) |} /\
     response_future w' = response_future w /\
     futures w' = futures w).
Proof.
  intros Hs Hnot (m & r & Hdone).
  destruct (step_calls _ _ _ Hs)
    as [Heq|[(m0 & dr & -> & ->)|(c0 & Hsus & st & Heq & Hor)]].
  - rewrite Heq in Hdone. destruct Hnot. by exists m, r.
  - rewrite send_command_calls in Hdone.
    apply lookup_snoc_Some in Hdone as [[_ Hd]|[-> Hd]].
    + destruct Hnot. by exists m, r.
    + destruct dr as [u|e]; [discriminate|]. right. exists m0, e.
      split; [reflexivity|]. split; [reflexivity|].
      split; [|by split]. simpl.
      by rewrite lookup_app_r, Nat.sub_diag.
  - rewrite Heq in Hdone. destruct (decide (c0 = c)) as [->|Hne].
    + left. split; [exact Hsus|].
      rewrite list_lookup_alter_eq in Hdone.
      destruct (calls w !! c) as [cl|]; simplify_eq/=.
      unfold with_state in Hdone. injection Hdone as _ Hst.
      destruct Hor as [?|Hn]; [done | by destruct (Hn r)].
    + rewrite list_lookup_alter_ne in Hdone by done.
      destruct Hnot. by exists m, r.
Qed.

End SendCommandProperties.

(** ** Timeout and concurrent calls *)
Section Waiters.
Context {P : Protocol}.
Implicit Types (w : World) (data : bytes) (msg : string).

(** C1 (the code at a timeout).  A call waits in [wait_for] on the
    future of the slot, the future is pending and the timeout runs out.
    [wait_for] cancels the future; the handler logs the warning and
    awaits the future of the slot, which is that cancelled future, so
    the call raises [CancelledError] and the [finally] clause empties
    the slot.  A reply that arrives afterwards finds no waiter: it is
    logged as unexpected, and the outcome of the call stays the
    [CancelledError] in every continuation. *)
Theorem send_command_timeout_abandons_wait c f m w :
  calls w !! c = Some {| message := m; at_ := InWaitFor f false |} ->
  response_future w = Some f ->
  futures w !! f = Some FutPending ->
  exists w1 w2,
    timer c w = Some w1 /\
    resume c w1 = Some w2 /\
    futures w2 !! f = Some FutCancelled /\
    log w2 =
      (log w ++
       [(WARNING,
         ("No response received within timeout for command: " ++ m)%string)])%list /\
    calls w2 !! c =
      Some {| message := m; at_ := Completed (Raise CancelledError) |} /\
    response_future w2 = None /\
    (forall data reply, data <> [] -> decode data = Return reply ->
       classify reply = ReplyMessage ->
       receive (Return data) w2 =
         (logger WARNING ("Received unexpected message: " ++ reply)
            (logger DEBUG ("Received message: " ++ reply) w2),
          Return (Some reply))) /\
    (forall acts w3, run acts w2 = Some w3 ->
       calls w3 !! c =
         Some {| message := m; at_ := Completed (Raise CancelledError) |}).
Proof.
  intros Hc Hslot Hf.
  assert (Hlt : f < List.length (futures w)) by (by eapply lookup_lt_Some).
  set (w1 := set_call c (InWaitFor f true)
               (set_futures (<[f := FutCancelled]> (futures w)) w)).
  assert (Ht : timer c w = Some w1).
  { unfold timer. rewrite Hc, Hf. reflexivity. }
  assert (Hc1 : calls w1 !! c =
                  Some {| message := m; at_ := InWaitFor f true |}).
  { subst w1. simpl. rewrite list_lookup_alter_eq, Hc. reflexivity. }
  assert (Hf1 : futures w1 !! f = Some FutCancelled).
  { subst w1. simpl. by apply list_lookup_insert_eq. }
  set (w2 := complete c (Raise CancelledError)
               (logger WARNING
                  ("No response received within timeout for command: " ++ m)
                  w1)).
  assert (Hr : resume c w1 = Some w2).
  { unfold resume. rewrite Hc1, Hf1. unfold on_timeout.
    change (response_future (logger WARNING _ w1)) with (response_future w).
    rewrite Hslot. unfold await_future.
    change (futures (logger WARNING _ w1)) with (futures w1).
    rewrite Hf1. reflexivity. }
  assert (Hc2 : calls w2 !! c =
            Some {| message := m; at_ := Completed (Raise CancelledError) |}).
  { subst w2 w1. simpl. rewrite !list_lookup_alter_eq, Hc. reflexivity. }
  exists w1, w2. repeat split; try done.
  - intros data reply Hne Hdec Hcls.
    rewrite (receive_decoded _ _ _ Hne Hdec).
    by apply route_reply_unexpected.
  - intros acts w3 Hrun. by eapply run_completed_stable.
Qed.

(** C2, as the code has it.  [send_command] does not look at the slot.
    Issued while the waiter [f] of an earlier call is outstanding (on a
    live stream, where [drain] returns), it is neither rejected nor
    queued: the call is in flight at once and the slot holds its fresh
    waiter [f'] in place of [f].  Both futures are
    pending, and only [f'] can be reached through the slot: the next
    reply resolves [f'], which the second call returns, and leaves [f]
    pending. *)
Theorem second_send_command_replaces_waiter m f data reply w :
  response_future w = Some f ->
  futures w !! f = Some FutPending ->
  data <> [] ->
  decode data = Return reply ->
  classify reply = ReplyMessage ->
  let f' := List.length (futures w) in
  let c' := List.length (calls w) in
  let w1 := send_command m (Return tt) w in
  let w2 := (receive (Return data) w1).1 in
  calls w1 = (calls w ++ [{| message := m; at_ := InWaitFor f' false |}])%list /\
  response_future w1 = Some f' /\
  f' <> f /\
  futures w1 !! f = Some FutPending /\
  futures w1 !! f' = Some FutPending /\
  waiter w1 = Some f' /\
  futures w2 !! f' = Some (FutResult reply) /\
  futures w2 !! f = Some FutPending /\
  resume c' w2 = Some (complete c' (Return reply) w2).
Proof.
  intros Hslot Hf Hne Hdec Hcls f' c' w1 w2.
  assert (Hlt : f < f') by (by eapply lookup_lt_Some).
  assert (Hw1 : waiter w1 = Some f') by apply waiter_send_command.
  assert (Hw2 : w2 = set_result f' reply
                       (logger DEBUG ("Received message: " ++ reply) w1)).
  { subst w2. rewrite (receive_decoded _ _ _ Hne Hdec),
      (route_reply_waiter _ _ _ Hcls Hw1). reflexivity. }
  assert (Hf1 : futures w1 = (futures w ++ [FutPending])%list) by reflexivity.
  assert (Hf2 : futures w2 = <[f' := FutResult reply]> (futures w1))
    by (rewrite Hw2; reflexivity).
  assert (Hc2 : calls w2 =
            (calls w ++ [{| message := m; at_ := InWaitFor f' false |}])%list)
    by (rewrite Hw2; reflexivity).
  split; [reflexivity|]. split; [reflexivity|]. split; [lia|].
  split; [rewrite Hf1; by apply lookup_app_l_Some|].
  split; [rewrite Hf1, lookup_app_r, Nat.sub_diag by reflexivity; done|].
  split; [done|].
  assert (Hres : futures w2 !! f' = Some (FutResult reply)).
  { rewrite Hf2. apply list_lookup_insert_eq. rewrite Hf1, length_app. simpl.
    subst f'. lia. }
  split; [done|]. split.
  - rewrite Hf2, list_lookup_insert_ne by lia. rewrite Hf1.
    by apply lookup_app_l_Some.
  - unfold resume. rewrite Hc2, lookup_app_r by reflexivity.
    subst c'. rewrite Nat.sub_diag. simpl. rewrite Hres. reflexivity.
Qed.

End Waiters.

(** ** Life cycle: [start_listening] and [close] *)
Section Lifecycle.
Context {P : Protocol}.
Implicit Types (w : World) (a : Action).

(** C8. [start_listening] is idempotent.  The first call creates the
    task of the receive loop, which enters the loop at its first step;
    a call made when a task has been created returns the state as it
    is; calling twice is calling once; and no execution ever holds more
    than one task. *)
Theorem start_listening_idempotent w :
  (listen_task w = None ->
     listen_task (start_listening w) = Some (List.length (tasks w)) /\
     tasks (start_listening w) = (tasks w ++ [TaskScheduled false])%list /\
     exists w1, run_task (List.length (tasks w)) (start_listening w) = Some w1 /\
                tasks w1 = (tasks w ++ [TaskReading false])%list) /\
  (is_Some (listen_task w) -> start_listening w = w) /\
  start_listening (start_listening w) = start_listening w /\
  (reachable w -> List.length (tasks (start_listening w)) = 1).
Proof.
  split; [|split; [|split]].
  - intros Hl. unfold start_listening. rewrite Hl. simpl.
    split; [done|]. split; [done|].
    unfold run_task. simpl.
    rewrite lookup_app_r, Nat.sub_diag by reflexivity. simpl.
    eexists. split; [reflexivity|]. simpl.
    rewrite insert_app_r_alt, Nat.sub_diag by reflexivity. reflexivity.
  - intros [t Hl]. unfold start_listening. by rewrite Hl.
  - unfold start_listening. destruct (listen_task w) eqn:Hl.
    + by rewrite Hl.
    + reflexivity.
  - intros Hr. apply reachable_wf in Hr.
    pose proof (wf_start_listening _ Hr) as Hwf.
    destruct (listen_task (start_listening w)) as [t|] eqn:Hl.
    + apply (wf_one_task _ Hwf _ Hl).
    + unfold start_listening in Hl.
      destruct (listen_task w) eqn:E; [congruence | discriminate].
Qed.










End Lifecycle.

(** * Executions of the class on the sample protocol *)
Module Runs.
Import Sample.
#[local] Existing Instance protocol.

Lemma exec_reachable acts w :
  run (P := protocol) acts init = Some w -> reachable (exec acts).
Proof. intros H. exists acts. unfold exec. by rewrite H. Qed.

(** *** C1 *)

(** One command, no reply within the timeout, the reply afterwards. *)
Lemma send_command_timeout_abandons_wait_witness :
  let w := exec [ASendCommand "status" (Return tt); AStartListening; ARunTask 0] in
  calls w !! 0 = Some {| message := "status"; at_ := InWaitFor 0 false |} /\
  response_future w = Some 0 /\
  futures w !! 0 = Some FutPending /\
  exists w1 w2,
    timer 0 w = Some w1 /\ resume 0 w1 = Some w2 /\
    calls w2 !! 0 =
      Some {| message := "status"; at_ := Completed (Raise CancelledError) |} /\
    receive (Return (wire "running")) w2 =
      (logger WARNING "Received unexpected message: running"
         (logger DEBUG "Received message: running" w2),
       Return (Some "running")).
Proof.
  intros w.
  split; [reflexivity|]. split; [reflexivity|]. split; [reflexivity|].
  destruct (send_command_timeout_abandons_wait (P := protocol)
              0 0 "status" w eq_refl eq_refl eq_refl)
    as (w1 & w2 & H1 & H2 & _ & _ & H3 & _ & H4 & _).
  exists w1, w2. split; [exact H1|]. split; [exact H2|]. split; [exact H3|].
  apply (H4 (wire "running") "running"); [discriminate | reflexivity..].
Defined.

(** The same as one execution: the call has raised [CancelledError] and
    the late reply went to the log. *)
Example late_reply_is_lost :
  let w := exec [ASendCommand "status" (Return tt); AStartListening; ARunTask 0;
                 ATimer 0; AResume 0; AData 0 (wire "running")] in
  calls w = [{| message := "status";
                at_ := Completed (Raise CancelledError) |}] /\
  futures w = [FutCancelled] /\
  response_future w = None /\
  log w = [(DEBUG, "Sent message: status");
           (WARNING, "No response received within timeout for command: status");
           (DEBUG, "Received message: running");
           (WARNING, "Received unexpected message: running")].
Proof. vm_compute. repeat split. Qed.

(** *** C2 *)

(** Two commands in a row before any reply.  The second is accepted and
    takes the slot while the first waits; the reply to the first
    command is returned by the second call, the reply to the second is
    discarded, and the first call ends with a [TypeError] at its
    timeout. *)
Lemma second_send_command_swaps_results :
  let w2 := exec [ASendCommand "read temp" (Return tt); ASendCommand "stop" (Return tt)] in
  let w := exec [ASendCommand "read temp" (Return tt); ASendCommand "stop" (Return tt);
                 AStartListening; ARunTask 0;
                 AData 0 (wire "25.0"); AResume 1;
                 AData 0 (wire "stopped");
                 ATimer 0; AResume 0] in
  calls w2 = [{| message := "read temp"; at_ := InWaitFor 0 false |};
              {| message := "stop"; at_ := InWaitFor 1 false |}] /\
  futures w2 = [FutPending; FutPending] /\
  response_future w2 = Some 1 /\
  calls w = [{| message := "read temp";
                at_ := Completed (Raise (TypeError
                  "object NoneType can't be used in 'await' expression")) |};
             {| message := "stop"; at_ := Completed (Return "25.0") |}] /\
  log w = [(DEBUG, "Sent message: read temp");
           (DEBUG, "Sent message: stop");
           (DEBUG, "Received message: 25.0");
           (DEBUG, "Received message: stopped");
           (WARNING, "Received unexpected message: stopped");
           (WARNING,
            "No response received within timeout for command: read temp")].
Proof. vm_compute. repeat split. Qed.

Lemma second_send_command_replaces_waiter_witness :
  let w := exec [ASendCommand "read temp" (Return tt)] in
  response_future w = Some 0 /\
  futures w !! 0 = Some FutPending /\
  wire "25.0" <> [] /\
  decode (wire "25.0") = Return "25.0" /\
  classify "25.0" = ReplyMessage /\
  let w1 := send_command "stop" (Return tt) w in
  let w2 := (receive (Return (wire "25.0")) w1).1 in
  response_future w1 = Some 1 /\
  futures w2 !! 1 = Some (FutResult "25.0") /\
  futures w2 !! 0 = Some FutPending.
Proof.
  intros w.
  split; [reflexivity|]. split; [reflexivity|]. split; [discriminate|].
  split; [reflexivity|]. split; [reflexivity|].
  destruct (second_send_command_replaces_waiter (P := protocol)
              "stop" 0 (wire "25.0") "25.0" w
              eq_refl eq_refl ltac:(discriminate) eq_refl eq_refl)
    as (_ & H1 & _ & _ & _ & _ & H2 & H3 & _).
  intros w1 w2. split; [exact H1|]. split; [exact H2 | exact H3].
Defined.

(** *** C3 *)

(** The stream is open and nobody has called [close]; a chunk that does
    not decode, an event that does not parse, or an event whose callback
    raises, ends the loop. *)
Lemma listen_loop_ends_on_message_error :
  let w := exec [AStartListening; ARunTask 0; AData 0 [xff]] in
  let w' := exec [ASetEventCallback quiet_callback;
                  AStartListening; ARunTask 0; AData 0 (wire "event ")] in
  let w'' := exec [ASetEventCallback failing_callback;
                   AStartListening; ARunTask 0;
                   AData 0 (wire "event stop")] in
  tasks w = [TaskFinished] /\
  closed (writer w) = false /\ closes w = [] /\
  log w = [(ERROR, "Error in listening task: DecodeError")] /\
  tasks w' = [TaskFinished] /\
  closed (writer w') = false /\ closes w' = [] /\
  log w' = [(DEBUG, "Received message: event ");
            (ERROR, "Error in listening task: EventParseError")] /\
  tasks w'' = [TaskFinished] /\
  closed (writer w'') = false /\ closes w'' = [] /\
  log w'' = [(DEBUG, "Received message: event stop");
             (ERROR, "Error in listening task: callback failed")].
Proof. vm_compute. repeat split. Qed.

Lemma listen_ends_iff_receive_raises_witness :
  let w := exec [AStartListening; ARunTask 0] in
  stop_cause (Return [xff]) w = Some (Exception "DecodeError") /\
  generic (Exception "DecodeError") = true /\
  listen_iteration (Return [xff]) w =
    (logger ERROR "Error in listening task: DecodeError" w, false) /\
  listen_iteration (Return (wire "running")) w =
    (logger WARNING "Received unexpected message: running"
       (logger DEBUG "Received message: running" w), true).
Proof.
  intros w. split; [reflexivity|]. split; [reflexivity|].
  destruct (listen_ends_iff_receive_raises (P := protocol)
              (Return [xff]) w) as (_ & H & _).
  split; [exact (H (Exception "DecodeError") eq_refl eq_refl)|].
  destruct (listen_ends_iff_receive_raises (P := protocol)
              (Return (wire "running")) w) as (_ & _ & _ & H').
  apply (H' (wire "running") "running");
    [reflexivity | discriminate | reflexivity..].
Defined.

(** *** C4 *)

(** The read returned bytes, and [receive] raises: with a chunk that
    does not decode, and with an event whose callback raises. *)
Lemma receive_raises_on_nonempty_read :
  let w := set_event_callback failing_callback init in
  [xff] <> [] /\
  (receive (Return [xff]) init).2 = Raise (Exception "DecodeError") /\
  (forall v, (receive (Return [xff]) init).2 <> Return v) /\
  wire "event stop" <> [] /\
  (receive (Return (wire "event stop")) w).2 =
    Raise (Exception "callback failed") /\
  (forall v, (receive (Return (wire "event stop")) w).2 <> Return v).
Proof.
  intros w. split; [discriminate|]. split; [reflexivity|].
  split; [intros v; discriminate|]. split; [discriminate|].
  split; [reflexivity|]. intros v. discriminate.
Qed.

Lemma receive_cycle_witness :
  let w := exec [ASendCommand "status" (Return tt)] in
  let w' := complete 0 (Return "running")
              (set_result 0 "running" w) in
  wire "running" <> [] /\
  decode (wire "running") = Return "running" /\
  classify "running" = ReplyMessage /\
  waiter w = Some 0 /\ waiter w' = None /\
  receive (Return (wire "running")) w =
    (set_result 0 "running" (logger DEBUG "Received message: running" w),
     Return (Some "running")) /\
  receive (Return (wire "running")) w' =
    (logger WARNING "Received unexpected message: running"
       (logger DEBUG "Received message: running" w'),
     Return (Some "running")).
Proof.
  intros w w'. split; [discriminate|]. split; [reflexivity|].
  split; [reflexivity|]. split; [reflexivity|]. split; [reflexivity|].
  split.
  - destruct (receive_cycle (P := protocol) w) as (_ & _ & H & _).
    apply (H (wire "running") "running" 0);
      [discriminate | reflexivity..].
  - destruct (receive_cycle (P := protocol) w') as (_ & _ & _ & H).
    apply (H (wire "running") "running");
      [discriminate | reflexivity..].
Defined.

(** *** C5 *)

Lemma receive_drops_invalid_command_witness :
  let w := exec [ASetEventCallback quiet_callback; ASendCommand "set temp 999" (Return tt)] in
  let data := wire "Error: Invalid Command (set temp 999)" in
  data <> [] /\
  decode data = Return "Error: Invalid Command (set temp 999)" /\
  Str.contains_ci "invalid command" "Error: Invalid Command (set temp 999)" /\
  (receive (Return data) w).2 = Return None /\
  futures (receive (Return data) w).1 = [FutPending] /\
  delivered (receive (Return data) w).1 = [].
Proof.
  intros w data.
  assert (Hci : Str.contains_ci "invalid command"
                  "Error: Invalid Command (set temp 999)").
  { exists "Error: ", "Invalid Command", " (set temp 999)".
    split; reflexivity. }
  split; [discriminate|]. split; [reflexivity|]. split; [exact Hci|].
  destruct (receive_drops_invalid_command (P := protocol)
              data "Error: Invalid Command (set temp 999)" w
              ltac:(discriminate) eq_refl Hci)
    as (H1 & H2 & _ & _ & H3 & _).
  split; [exact H1|]. split; [exact H2 | exact H3].
Defined.

(** *** C9 *)

Lemma receive_discards_event_without_callback_witness :
  let w := exec [ASendCommand "status" (Return tt)] in
  let data := wire "event stop" in
  data <> [] /\
  decode data = Return "event stop" /\
  classify "event stop" = EventMessage /\
  event_callback w = None /\
  waiter w = Some 0 /\
  (receive (Return data) w).2 = Return (Some "event stop") /\
  futures (receive (Return data) w).1 = [FutPending] /\
  log (receive (Return data) w).1 =
    [(DEBUG, "Sent message: status");
     (DEBUG, "Received message: event stop")].
Proof.
  intros w data.
  split; [discriminate|]. split; [reflexivity|]. split; [reflexivity|].
  split; [reflexivity|]. split; [reflexivity|].
  destruct (receive_discards_event_without_callback (P := protocol)
              data "event stop" w ltac:(discriminate)
              eq_refl eq_refl eq_refl)
    as (H1 & _ & H2 & _ & _ & H3).
  split; [exact H1|]. split; [exact H2 | exact H3].
Defined.

(** *** C10 *)


(** *** C6 *)

(** The call returns its reply. *)
Lemma send_command_clears_slot_witness :
  let acts := [ASendCommand "status" (Return tt); AStartListening; ARunTask 0;
               AData 0 (wire "running")] in
  let w := exec acts in
  let w' := exec (acts ++ [AResume 0]) in
  step (AResume 0) w = Some w' /\
  ~ completed w 0 /\
  completed w' 0 /\
  response_future w = Some 0 /\
  suspended w 0 /\
  response_future w' = None.
Proof.
  intros acts w w'.
  assert (Hs : step (AResume 0) w = Some w') by (vm_compute; reflexivity).
  assert (Hn : ~ completed w 0).
  { intros (m & r & H). vm_compute in H. discriminate. }
  assert (Hc : completed w' 0).
  { exists "status", (Return "running"). reflexivity. }
  split; [exact Hs|]. split; [exact Hn|]. split; [exact Hc|].
  split; [reflexivity|].
  destruct (send_command_clears_slot (P := protocol)
              (AResume 0) w w' 0 Hs Hn Hc) as [H | (m & e & H & _)].
  - exact H.
  - discriminate H.
Defined.

(** The three ways out of the [try] statement, each leaving the slot
    empty: a reply in time; a timeout, then the reply that a later call
    was waiting for; an exception. *)
Example send_command_ways_out :
  let replied := exec [ASendCommand "status" (Return tt); AStartListening; ARunTask 0;
                       AData 0 (wire "running"); AResume 0] in
  let late := exec [ASendCommand "read temp" (Return tt); ASendCommand "stop" (Return tt);
                    AStartListening; ARunTask 0;
                    ATimer 0; AResume 0;
                    AData 0 (wire "25.0"); AResume 0] in
  let raised := exec [ASendCommand "status" (Return tt); ACancelCall 0] in
  (calls replied !! 0 =
     Some {| message := "status"; at_ := Completed (Return "running") |} /\
   response_future replied = None) /\
  (calls late !! 0 =
     Some {| message := "read temp"; at_ := Completed (Return "25.0") |} /\
   response_future late = None) /\
  (calls raised !! 0 =
     Some {| message := "status"; at_ := Completed (Raise CancelledError) |} /\
   response_future raised = None).
Proof. vm_compute. repeat split. Qed.

(** The way out before the [try] statement.  A first call waits for its
    reply; the connection is closed; a second call writes its frame and
    [drain] raises.  The second call has ended, by that exception, and
    the slot still holds the waiter of the first call: no future was
    created and no [finally] clause ran. *)
Lemma send_command_ends_with_slot_set :
  let acts := [ASendCommand "read temp" (Return tt); AClose (Return tt)] in
  let failing :=
    ASendCommand "stop" (Raise (ConnectionResetError "Connection lost")) in
  let w := exec acts in
  let w' := exec (acts ++ [failing]) in
  reachable w /\
  step failing w = Some w' /\
  ~ completed w 1 /\
  completed w' 1 /\
  calls w' !! 1 =
    Some {| message := "stop";
            at_ := Completed (Raise (ConnectionResetError "Connection lost")) |} /\
  futures w' = [FutPending] /\
  response_future w' = Some 0 /\
  response_future w' <> None.
Proof.
  intros acts failing w w'.
  split. { apply (exec_reachable acts w). vm_compute. reflexivity. }
  split. { vm_compute. reflexivity. }
  split. { intros (m & r & H). vm_compute in H. discriminate. }
  split.
  { exists "stop", (Raise (ConnectionResetError "Connection lost")).
    vm_compute. reflexivity. }
  split; [vm_compute; reflexivity|].
  split; [vm_compute; reflexivity|].
  split; [vm_compute; reflexivity|].
  vm_compute. discriminate.
Qed.

(** *** C7 *)


(** [close] with the loop running, with the task created and not yet
    run, and with no loop; then [close] once more. *)
Example close_runs :
  let running := exec [AStartListening; ARunTask 0;
                       AClose (Return tt); ARunTask 0; ACloseResume 0 (Return tt)] in
  let created := exec [AStartListening;
                       AClose (Return tt); ARunTask 0; ACloseResume 0 (Return tt)] in
  let never := exec [AClose (Return tt)] in
  (tasks running = [TaskFinished] /\
   writer running = {| written := []; closed := true |} /\
   closes running = [CloseCompleted (Return tt)] /\
   log running = [(DEBUG, "Listening task cancelled");
                  (INFO, "Connection closed")]) /\
  (tasks created = [TaskCancelled] /\
   writer created = {| written := []; closed := true |} /\
   closes created = [CloseCompleted (Return tt)] /\
   log created = [(INFO, "Connection closed")]) /\
  (tasks never = [] /\
   writer never = {| written := []; closed := true |} /\
   closes never = [CloseCompleted (Return tt)] /\
   log never = [(INFO, "Connection closed")]) /\
  (tasks (close (Return tt) running) = tasks running /\
   writer (close (Return tt) running) = writer running /\
   closes (close (Return tt) running) =
     [CloseCompleted (Return tt); CloseCompleted (Return tt)] /\
   log (close (Return tt) running) = [(DEBUG, "Listening task cancelled");
                          (INFO, "Connection closed");
                          (INFO, "Connection closed")]).
Proof. vm_compute. repeat split. Qed.


(** *** C8 *)

Lemma start_listening_idempotent_witness :
  let w := exec [ASendCommand "status" (Return tt)] in
  reachable w /\
  listen_task w = None /\
  listen_task (start_listening w) = Some 0 /\
  tasks (start_listening w) = [TaskScheduled false] /\
  start_listening (start_listening w) = start_listening w /\
  List.length (tasks (start_listening w)) = 1.
Proof.
  intros w.
  assert (Hr : reachable w)
    by (by apply (exec_reachable [ASendCommand "status" (Return tt)] w)).
  split; [exact Hr|]. split; [reflexivity|].
  destruct (start_listening_idempotent (P := protocol) w)
    as (H1 & _ & H2 & H3).
  destruct (H1 eq_refl) as (H4 & H5 & _).
  split; [exact H4|]. split; [exact H5|]. split; [exact H2|].
  exact (H3 Hr).
Defined.

End Runs.

(** * Further properties of the class *)

(** ** Events, replies and the callback *)
Section Routing.
Context {P : Protocol}.
Implicit Types (w : World) (data : bytes) (msg : string).

(** X1. An event that arrives while a callback is registered, and whose
    callback completes, is parsed and handed to the callback once;
    nothing else happens: no future is resolved even if a waiter is
    outstanding, no warning is logged, and [receive] returns the decoded
    message. *)
Theorem receive_delivers_event
    data msg (ev : AnovaEvent) (callback : Callback) w :
  data <> [] ->
  decode data = Return msg ->
  classify msg = EventMessage ->
  event_callback w = Some callback ->
  parse_event msg = Return ev ->
  callback ev = Return tt ->
  (receive (Return data) w).2 = Return (Some msg) /\
  delivered (receive (Return data) w).1 = (delivered w ++ [ev])%list /\
  futures (receive (Return data) w).1 = futures w /\
  response_future (receive (Return data) w).1 = response_future w /\
  calls (receive (Return data) w).1 = calls w /\
  log (receive (Return data) w).1 =
    (log w ++ [(DEBUG, ("Received message: " ++ msg)%string)])%list.
Proof.
  intros Hne Hdec Hcls Hcb Hparse Hok.
  rewrite (receive_decoded _ _ _ Hne Hdec),
    (route_event_callback _ _ _ Hcls Hcb). simpl.
  rewrite Hparse, Hok. repeat split; reflexivity.
Qed.

(** X2. [set_event_callback] replaces the callback, whatever was
    registered before: the callback set last is the only one that
    matters, nothing is handed to it for the events of the past, and the
    next event is parsed, handed to it once, and decides with its
    outcome how [receive] completes. *)
Theorem set_event_callback_replaces
    (old new : Callback) data msg (ev : AnovaEvent) w :
  data <> [] ->
  decode data = Return msg ->
  classify msg = EventMessage ->
  parse_event msg = Return ev ->
  let w1 := set_event_callback new (set_event_callback old w) in
  w1 = set_event_callback new w /\
  delivered w1 = delivered w /\
  delivered (receive (Return data) w1).1 = (delivered w ++ [ev])%list /\
  (receive (Return data) w1).2 =
    match new ev with
    | Raise e => Raise e
    | Return _ => Return (Some msg)
    end.
Proof.
  intros Hne Hdec Hcls Hparse w1.
  split; [reflexivity|]. split; [reflexivity|].
  rewrite (receive_decoded _ _ _ Hne Hdec),
    (route_event_callback msg w1 new Hcls eq_refl). simpl.
  rewrite Hparse. split; reflexivity.
Qed.

(** X3. The round trip of one command.  From any state, [send_command]
    writes the encoded command and then the terminator 0x16, however
    [drain] completes; when [drain] returns, the call waits; when the
    next message is a reply, [receive] resolves the waiter with it, and
    the call, once resumed, returns exactly the decoded reply and leaves
    the slot empty. *)
Theorem send_command_returns_reply (m : string) data reply w :
  data <> [] ->
  decode data = Return reply ->
  classify reply = ReplyMessage ->
  let c := List.length (calls w) in
  let w1 := send_command m (Return tt) w in
  let w2 := (receive (Return data) w1).1 in
  (forall dr, written (writer (send_command m dr w)) =
                (written (writer w) ++ [encode m; [x16]])%list) /\
  resume c w1 = None /\
  (receive (Return data) w1).2 = Return (Some reply) /\
  exists w3,
    resume c w2 = Some w3 /\
    calls w3 !! c =
      Some {| message := m; at_ := Completed (Return reply) |} /\
    response_future w3 = None.
Proof.
  intros Hne Hdec Hcls c w1 w2.
  set (f := List.length (futures w)).
  assert (Hw1 : waiter w1 = Some f) by apply waiter_send_command.
  assert (Hrecv : receive (Return data) w1 =
            (set_result f reply
               (logger DEBUG ("Received message: " ++ reply) w1),
             Return (Some reply))).
  { rewrite (receive_decoded _ _ _ Hne Hdec).
    apply (route_reply_waiter _ _ _ Hcls Hw1). }
  split; [intros [[]|e]; simpl; by rewrite <- app_assoc|].
  split; [apply resume_send_command|].
  split; [by rewrite Hrecv|].
  assert (Hc2 : calls w2 !! c =
            Some {| message := m; at_ := InWaitFor f false |}).
  { subst w2. rewrite Hrecv. simpl.
    by rewrite lookup_app_r, Nat.sub_diag. }
  assert (Hf2 : futures w2 !! f = Some (FutResult reply)).
  { subst w2. rewrite Hrecv. simpl. apply list_lookup_insert_eq.
    rewrite length_app. simpl. subst f. lia. }
  exists (complete c (Return reply) w2). split.
  - unfold resume. rewrite Hc2, Hf2. reflexivity.
  - split; [|reflexivity]. simpl.
    rewrite list_lookup_alter_eq, Hc2. reflexivity.
Qed.

End Routing.

(** ** What executions keep *)
Section Kept.
Context {P : Protocol}.
Implicit Types (w : World) (a : Action) (data : bytes) (msg : string).

Lemma waiter_pending w f :
  waiter w = Some f ->
  response_future w = Some f /\ futures w !! f = Some FutPending.
Proof.
  unfold waiter. intros H.
  destruct (response_future w) as [g|]; [|discriminate].
  destruct (futures w !! g) as [[]|] eqn:Hg; simplify_eq/=. done.
Qed.

(** A step leaves the store of futures alone, adds a pending future at
    its end, or writes one future that was pending. *)
Lemma step_futures a w w' :
  step a w = Some w' ->
  futures w' = futures w \/
  futures w' = (futures w ++ [FutPending])%list \/
  exists f x, futures w !! f = Some FutPending /\
              futures w' = <[f := x]> (futures w).
Proof.
  destruct a; simpl; intros H.
  - simplify_eq. destruct dr as [[]|e]; [right; left | left]; reflexivity.
  - right; right. unfold timer in H. repeat case_match; simplify_eq.
    eexists _, _. split; [eassumption | reflexivity].
  - left. unfold resume in H. repeat case_match; simplify_eq;
      try reflexivity.
    match goal with
    | |- futures (on_timeout ?c ?m ?w) = _ =>
        by destruct (on_timeout_futures c m w)
    end.
  - right; right. unfold cancel_call in H. repeat case_match; simplify_eq;
      (eexists _, _; split; [eassumption | reflexivity]).
  - left. by simplify_eq.
  - left. simplify_eq. unfold start_listening. by case_match.
  - left. unfold run_task in H. repeat case_match; by simplify_eq.
  - unfold data_arrives in H. repeat case_match; simplify_eq.
    unfold after_iteration. simpl. rewrite listen_iteration_world.
    assert (Hr : futures (receive (Return data) w).1 = futures w \/
                 exists f x, futures w !! f = Some FutPending /\
                   futures (receive (Return data) w).1
                   = <[f := x]> (futures w)).
    { unfold receive, route. repeat case_match; simplify_eq/=; auto.
      right. match goal with
             | Hw : waiter _ = Some _ |- _ =>
                 apply waiter_pending in Hw as [_ Hw]
             end.
      eexists _, _. split; [eassumption | reflexivity]. }
    destruct ((receive (Return data) w).2); simpl; tauto.
  - left. simplify_eq. unfold close, close_after_await, close_stream.
    repeat case_match; simplify_eq; reflexivity.
  - left. unfold close_resume, close_after_await, close_stream in H.
    repeat case_match; simplify_eq; reflexivity.
Qed.

Lemma step_done_stable a w w' f st :
  step a w = Some w' ->
  futures w !! f = Some st -> done st = true ->
  futures w' !! f = Some st.
Proof.
  intros Hs Hf Hd.
  destruct (step_futures _ _ _ Hs) as [->|[->|(g & x & Hg & ->)]].
  - done.
  - by apply lookup_app_l_Some.
  - destruct (decide (g = f)) as [->|Hne].
    + rewrite Hf in Hg. by simplify_eq.
    + by rewrite list_lookup_insert_ne.
Qed.

(** X4. A future is settled once: after it has received a result or has
    been cancelled, no step of any execution changes it.  In particular
    a second reply never overwrites the reply that a call has not yet
    picked up (the test [not self.response_future.done()] of line 69). *)
Theorem done_future_is_final acts w w' f st :
  run acts w = Some w' ->
  futures w !! f = Some st ->
  done st = true ->
  futures w' !! f = Some st.
Proof.
  revert w. induction acts as [|a acts IH]; intros w H Hf Hd; simpl in H.
  - by simplify_eq.
  - destruct (step a w) as [w1|] eqn:Hs; [|discriminate].
    eapply IH; [exact H | | exact Hd]. by eapply step_done_stable.
Qed.

Lemma frames_sent_alter c st (l : list Call) :
  flat_map (fun cl => frame (message cl)) (alter (with_state st) c l)
  = flat_map (fun cl => frame (message cl)) l.
Proof.
  revert c.
  induction l as [|cl l IH]; intros [|c]; simpl; try reflexivity.
  do 2 f_equal. apply IH.
Qed.

(** A step that is not a call of [send_command] writes nothing and
    keeps the commands of the calls. *)
Lemma step_written a w w' :
  step a w = Some w' ->
  (exists m dr, a = ASendCommand m dr) \/
  (written (writer w') = written (writer w) /\
   frames_sent w' = frames_sent w).
Proof.
  destruct a; simpl; intros H; [eauto | right..].
  - unfold timer in H. repeat case_match; simplify_eq.
    split; [reflexivity | exact (frames_sent_alter _ _ _)].
  - destruct (resume_call_step _ _ _ H) as (_ & st & Hc & _).
    split.
    + unfold resume, on_timeout in H.
      repeat case_match; simplify_eq; reflexivity.
    + unfold frames_sent at 1. rewrite Hc. apply frames_sent_alter.
  - unfold cancel_call in H. repeat case_match; simplify_eq;
      (split; [reflexivity | exact (frames_sent_alter _ _ _)]).
  - by simplify_eq.
  - simplify_eq. unfold start_listening. by case_match.
  - unfold run_task in H. repeat case_match; by simplify_eq.
  - unfold data_arrives in H. repeat case_match; simplify_eq.
    destruct (after_iteration_frame t (Return data) w)
      as (_ & _ & _ & Hw & Hc & _).
    unfold frames_sent. by rewrite Hw, Hc.
  - simplify_eq. unfold frames_sent. rewrite close_calls. split; [|done].
    unfold close, close_after_await, close_stream.
    repeat case_match; simplify_eq; reflexivity.
  - unfold frames_sent. rewrite (close_resume_calls _ _ _ _ H).
    split; [|done].
    unfold close_resume, close_after_await, close_stream in H.
    repeat case_match; simplify_eq; reflexivity.
Qed.

Lemma run_frames_sent acts w w' :
  written (writer w) = frames_sent w ->
  run acts w = Some w' ->
  written (writer w') = frames_sent w'.
Proof.
  revert w. induction acts as [|a acts IH]; intros w Hinv H; simpl in H.
  - by simplify_eq.
  - destruct (step a w) as [w1|] eqn:Hs; [|discriminate].
    apply (IH w1); [|exact H].
    destruct (step_written _ _ _ Hs) as [(m & dr & ->)|[Hw Hf]].
    + simpl in Hs. simplify_eq. unfold frames_sent.
      destruct dr as [[]|e]; simpl;
        rewrite flat_map_app; fold (frames_sent w); rewrite <- Hinv;
        by rewrite <- app_assoc.
    + by rewrite Hw, Hf.
Qed.

(** X5. In every state of every execution, what has been written to the
    stream is, call after call in the order of the calls, the encoded
    command followed by the terminator 0x16: the two writes of a call
    are never separated by the writes of another call, and nothing else
    of the class writes to the stream. *)
Theorem written_is_frames_sent w :
  reachable w ->
  written (writer w) = frames_sent w.
Proof.
  intros [acts H]. by eapply run_frames_sent; [|exact H].
Qed.

End Kept.

(** ** Calls that overlap *)
Section Overlap.
Context {P : Protocol}.
Implicit Types (w : World) (data : bytes) (msg : string).

Lemma complete_lookup_eq c r cl w :
  calls w !! c = Some cl ->
  calls (complete c r w) !! c = Some (with_state (Completed r) cl).
Proof. intros H. simpl. by rewrite list_lookup_alter_eq, H. Qed.

Lemma complete_lookup_ne c c' r w :
  c <> c' -> calls (complete c r w) !! c' = calls w !! c'.
Proof. intros H. simpl. by rewrite list_lookup_alter_ne. Qed.

(** What [timer] and then [resume] make of a call that waits in
    [wait_for] on a pending future. *)
Lemma timer_then_handler c f m w :
  calls w !! c = Some {| message := m; at_ := InWaitFor f false |} ->
  futures w !! f = Some FutPending ->
  let w1 := set_call c (InWaitFor f true)
              (set_futures (<[f := FutCancelled]> (futures w)) w) in
  timer c w = Some w1 /\
  resume c w1 = Some (on_timeout c m w1) /\
  futures w1 = <[f := FutCancelled]> (futures w) /\
  response_future w1 = response_future w.
Proof.
  intros Hc Hf w1.
  assert (Hlt : f < List.length (futures w)) by (by eapply lookup_lt_Some).
  split; [unfold timer; by rewrite Hc, Hf|].
  split; [|done].
  unfold resume. subst w1. simpl.
  rewrite list_lookup_alter_eq, Hc. simpl.
  by rewrite list_lookup_insert_eq.
Qed.

(** X6. The timeout of a call runs out when the slot is empty, which is
    how another call that completed in the meantime has left it: the
    handler awaits [None] and the call raises [TypeError], after the
    warning has been logged. *)
Theorem timeout_with_empty_slot_raises_TypeError c f m w :
  calls w !! c = Some {| message := m; at_ := InWaitFor f false |} ->
  futures w !! f = Some FutPending ->
  response_future w = None ->
  exists w1 w2,
    timer c w = Some w1 /\
    resume c w1 = Some w2 /\
    calls w2 !! c =
      Some {| message := m;
              at_ := Completed (Raise (TypeError
                "object NoneType can't be used in 'await' expression")) |} /\
    log w2 =
      (log w ++
       [(WARNING,
         ("No response received within timeout for command: " ++ m)%string)])%list /\
    response_future w2 = None.
Proof.
  intros Hc Hf Hslot.
  destruct (timer_then_handler c f m w Hc Hf) as (Ht & Hr & _ & Hs1).
  eexists _, _. split; [exact Ht|]. split; [exact Hr|].
  unfold on_timeout.
  match goal with
  | |- context [logger WARNING ?t ?w1] =>
      change (response_future (logger WARNING t w1))
        with (response_future w1)
  end.
  rewrite Hs1, Hslot. simpl.
  rewrite !list_lookup_alter_eq, Hc. done.
Qed.

(** X7. The timeout of call [a] runs out while the slot holds the
    pending waiter [g] of another call [b].  The handler of [a] awaits
    the future of the slot, so [a] now waits on [g] as well; the next
    reply resolves [g], and both calls return that one reply. *)
Theorem timed_out_call_shares_reply a b fa g ma mb data reply w :
  a <> b ->
  calls w !! a = Some {| message := ma; at_ := InWaitFor fa false |} ->
  calls w !! b = Some {| message := mb; at_ := InWaitFor g false |} ->
  futures w !! fa = Some FutPending ->
  futures w !! g = Some FutPending ->
  fa <> g ->
  response_future w = Some g ->
  data <> [] ->
  decode data = Return reply ->
  classify reply = ReplyMessage ->
  exists w1 w2 w4 w5,
    timer a w = Some w1 /\
    resume a w1 = Some w2 /\
    calls w2 !! a = Some {| message := ma; at_ := InAwait g |} /\
    resume b (receive (Return data) w2).1 = Some w4 /\
    resume a w4 = Some w5 /\
    calls w5 !! a =
      Some {| message := ma; at_ := Completed (Return reply) |} /\
    calls w5 !! b =
      Some {| message := mb; at_ := Completed (Return reply) |}.
Proof.
  intros Hab Ha Hb Hfa Hg Hne Hslot Hdata Hdec Hcls.
  assert (Hlg : g < List.length (futures w)) by (by eapply lookup_lt_Some).
  destruct (timer_then_handler a fa ma w Ha Hfa) as (Ht & Hr & Hf1 & Hs1).
  set (w1 := set_call a (InWaitFor fa true)
               (set_futures (<[fa := FutCancelled]> (futures w)) w)) in *.
  set (w1' := logger WARNING
                ("No response received within timeout for command: " ++ ma)
                w1).
  assert (Hg1 : futures w1 !! g = Some FutPending).
  { rewrite Hf1. by rewrite list_lookup_insert_ne. }
  assert (Hot : on_timeout a ma w1 = set_call a (InAwait g) w1').
  { unfold on_timeout. fold w1'.
    change (response_future w1') with (response_future w1).
    rewrite Hs1, Hslot. unfold await_future.
    change (futures w1') with (futures w1). by rewrite Hg1. }
  set (w2 := set_call a (InAwait g) w1') in *.
  assert (Ha2 : calls w2 !! a = Some {| message := ma; at_ := InAwait g |}).
  { subst w2 w1' w1. simpl. by rewrite !list_lookup_alter_eq, Ha. }
  assert (Hb2 : calls w2 !! b =
                  Some {| message := mb; at_ := InWaitFor g false |}).
  { subst w2 w1' w1. simpl. by rewrite !list_lookup_alter_ne. }
  assert (Hw2 : waiter w2 = Some g).
  { unfold waiter. change (response_future w2) with (response_future w1).
    rewrite Hs1, Hslot. change (futures w2) with (futures w1).
    by rewrite Hg1. }
  assert (Hrecv : receive (Return data) w2 =
            (set_result g reply
               (logger DEBUG ("Received message: " ++ reply) w2),
             Return (Some reply))).
  { rewrite (receive_decoded _ _ _ Hdata Hdec).
    apply (route_reply_waiter _ _ _ Hcls Hw2). }
  set (w3 := set_result g reply
               (logger DEBUG ("Received message: " ++ reply) w2)) in *.
  assert (Hg3 : futures w3 !! g = Some (FutResult reply)).
  { subst w3. simpl. apply list_lookup_insert_eq. by rewrite length_insert. }
  set (w4 := complete b (Return reply) w3).
  assert (Hrb : resume b w3 = Some w4).
  { unfold resume. change (calls w3) with (calls w2). rewrite Hb2, Hg3. done. }
  assert (Ha4 : calls w4 !! a = Some {| message := ma; at_ := InAwait g |}).
  { subst w4. simpl. rewrite list_lookup_alter_ne by done. exact Ha2. }
  set (w5 := complete a (Return reply) w4).
  assert (Hra : resume a w4 = Some w5).
  { unfold resume. rewrite Ha4. unfold await_future.
    change (futures w4) with (futures w3). by rewrite Hg3. }
  exists w1, w2, w4, w5. rewrite Hrecv. cbn [fst].
  split; [exact Ht|]. split; [by rewrite Hr, Hot|]. split; [exact Ha2|].
  split; [exact Hrb|]. split; [exact Hra|]. split.
  - subst w5. by rewrite (complete_lookup_eq _ _ _ _ Ha4).
  - subst w5 w4. rewrite complete_lookup_ne by done.
    change (calls w3) with (calls w2).
    by rewrite (complete_lookup_eq b (Return reply) _ w3 Hb2).
Qed.

(** X8. A call completes while the slot holds the pending waiter [g] of
    another call: the [finally] clause empties the slot all the same.
    The waiter [g] is out of reach from then on: the reply that was meant
    for it is logged as unexpected and [g] stays pending. *)
Theorem completion_clears_waiter_of_other_call
    c f expired m r g data reply w :
  calls w !! c = Some {| message := m; at_ := InWaitFor f expired |} ->
  futures w !! f = Some (FutResult r) ->
  response_future w = Some g ->
  futures w !! g = Some FutPending ->
  data <> [] ->
  decode data = Return reply ->
  classify reply = ReplyMessage ->
  exists w1,
    resume c w = Some w1 /\
    calls w1 !! c = Some {| message := m; at_ := Completed (Return r) |} /\
    response_future w1 = None /\
    futures w1 !! g = Some FutPending /\
    receive (Return data) w1 =
      (logger WARNING ("Received unexpected message: " ++ reply)
         (logger DEBUG ("Received message: " ++ reply) w1),
       Return (Some reply)) /\
    futures (receive (Return data) w1).1 !! g = Some FutPending.
Proof.
  intros Hc Hf Hslot Hg Hdata Hdec Hcls.
  exists (complete c (Return r) w).
  assert (Hrecv : receive (Return data) (complete c (Return r) w) =
      (logger WARNING ("Received unexpected message: " ++ reply)
         (logger DEBUG ("Received message: " ++ reply)
            (complete c (Return r) w)),
       Return (Some reply))).
  { rewrite (receive_decoded _ _ _ Hdata Hdec).
    by apply route_reply_unexpected. }
  split; [unfold resume; by rewrite Hc, Hf|].
  split; [simpl; by rewrite list_lookup_alter_eq, Hc|].
  split; [reflexivity|]. split; [exact Hg|].
  split; [exact Hrecv|]. rewrite Hrecv. exact Hg.
Qed.

End Overlap.

(** ** The end of the loop, and the order of arrival *)
Section LoopEnd.
Context {P : Protocol}.
Implicit Types (w : World) (data : bytes) (msg : string).

Lemma single_task_done_stopped w t st :
  wf w -> listen_task w = Some t -> tasks w !! t = Some st ->
  task_done st = true -> listening_stopped w.
Proof.
  intros Hwf Hl Ht Hd. destruct (wf_one_task _ Hwf _ Hl) as [-> Hlen].
  split; [rewrite Hl; by eexists|].
  destruct (tasks w) as [|st' [|? ?]]; simplify_eq/=.
  by repeat constructor.
Qed.

(** X9. The peer closes the stream (a read of zero bytes) while the loop
    reads: the loop logs an error record and a debug record and the task
    finishes.  Nothing else is touched: the stream writer is not closed,
    and a call of [send_command] that is waiting is not woken, its waiter
    stays pending in the slot; in every continuation no future receives
    a result any more. *)
Theorem peer_close_ends_loop t w :
  reachable w ->
  listen_task w = Some t ->
  tasks w !! t = Some (TaskReading false) ->
  exists w',
    data_arrives t [] w = Some w' /\
    tasks w' !! t = Some TaskFinished /\
    log w' = (log w ++ [(ERROR, "Connection closed by remote host");
                        (DEBUG, "Connection closed by remote host")])%list /\
    futures w' = futures w /\
    response_future w' = response_future w /\
    calls w' = calls w /\
    writer w' = writer w /\
    delivered w' = delivered w /\
    forall acts w'', run acts w' = Some w'' ->
      listening_stopped w'' /\ no_delivery w' w''.
Proof.
  intros Hr Hl Ht.
  assert (Hlt : t < List.length (tasks w)) by (by eapply lookup_lt_Some).
  unfold data_arrives. rewrite Ht. eexists. split; [reflexivity|].
  split; [simpl; by apply list_lookup_insert_eq|].
  split; [simpl; by rewrite <- app_assoc|].
  do 5 (split; [reflexivity|]).
  intros acts w'' Hrun. eapply stopped_run; [|exact Hrun].
  eapply single_task_finished; [by apply reachable_wf | exact Hl | done..].
Qed.

(** X10. A loop that has ended is never restarted.  [listen_task] is
    never reset, by [close] or by anything else, so once the task is
    done (the peer closed the stream, an error ended the loop, or
    [close] cancelled it), in every continuation [start_listening] does
    nothing, no data is read, no event is delivered and no future
    receives a result. *)
Theorem ended_loop_is_never_restarted t st acts w w' :
  reachable w ->
  listen_task w = Some t ->
  tasks w !! t = Some st ->
  task_done st = true ->
  run acts w = Some w' ->
  listen_task w' = Some t /\
  tasks w' = tasks w /\
  start_listening w' = w' /\
  (forall t' data, data_arrives t' data w' = None) /\
  (forall t', run_task t' w' = None) /\
  no_delivery w w'.
Proof.
  intros Hr Hl Ht Hd Hrun.
  assert (Hwf : wf w) by (by apply reachable_wf).
  assert (Hs : listening_stopped w)
    by (by eapply single_task_done_stopped).
  destruct (stopped_run _ _ _ Hs Hrun) as [Hs' Hn].
  assert (Hkeep : forall acts0 w0 w1,
            listening_stopped w0 -> run acts0 w0 = Some w1 ->
            listen_task w1 = listen_task w0 /\ tasks w1 = tasks w0).
  { clear. induction acts0 as [|a acts0 IH]; intros w0 w1 Hs0 H; simpl in H.
    - by simplify_eq.
    - destruct (step a w0) as [w2|] eqn:Hst; [|discriminate].
      destruct (stopped_step _ _ _ Hs0 Hst) as [Hs2 _].
      destruct (IH _ _ Hs2 H) as [-> ->].
      clear IH H. destruct a; simpl in Hst.
      + simplify_eq. by destruct dr as [[]|e].
      + by destruct (timer_lifecycle _ _ _ Hst) as (? & ? & _).
      + by destruct (resume_lifecycle _ _ _ Hst) as (? & ? & _).
      + by destruct (cancel_call_lifecycle _ _ _ Hst) as (? & ? & _).
      + by simplify_eq.
      + simplify_eq. destruct Hs0 as [[t0 Hl0] _].
        unfold start_listening. by rewrite Hl0.
      + unfold run_task in Hst.
        destruct (tasks w0 !! t) as [st0|] eqn:Ht0; [|discriminate].
        pose proof (stopped_no_live_task _ _ _ Hs0 Ht0).
        by destruct st0 as [[]|[]| |].
      + by rewrite stopped_no_data in Hst.
      + simplify_eq. destruct Hs0 as [[t0 Hl0] Hall].
        unfold close. rewrite Hl0.
        assert (Hid : alter request_cancel t0 (tasks w0) = tasks w0).
        { apply list_eq. intros i. rewrite list_lookup_alter.
          case_decide; [|done]. subst.
          destruct (tasks w0 !! i) as [st0|] eqn:Hi; [|done].
          pose proof (Forall_lookup_1 _ _ _ _ Hall Hi) as Hd0. simpl in Hd0.
          by destruct st0. }
        unfold close_after_await, close_stream.
        repeat case_match; simplify_eq; simpl; by rewrite ?Hid.
      + unfold close_resume, close_after_await, close_stream in Hst.
        repeat case_match; by simplify_eq. }
  destruct (Hkeep _ _ _ Hs Hrun) as [Hl' Ht'].
  split; [by rewrite Hl'|]. split; [exact Ht'|].
  split; [unfold start_listening; by rewrite Hl', Hl|].
  split; [intros t' data; by apply stopped_no_data|].
  split; [|exact Hn].
  intros t'. unfold run_task.
  destruct (tasks w' !! t') as [st'|] eqn:Ht''; [|done].
  pose proof (stopped_no_live_task _ _ _ Hs' Ht'').
  by destruct st' as [[]|[]| |].
Qed.

Lemma listen_iteration_returned (rd : outcome bytes) w w' v :
  receive rd w = (w', Return v) -> listen_iteration rd w = (w', true).
Proof. unfold listen_iteration. by intros ->. Qed.

(** X11. Messages are routed in the order of arrival.  With a callback
    that completes and a call waiting, the chunks of an event, a reply
    and another event, read in that order, leave the loop running, hand
    the two events to the callback in their order, resolve the waiter
    with the reply (never with the text of an event) and log no
    warning. *)
Theorem listen_routes_in_arrival_order
    d1 d2 d3 m1 m2 m3 (ev1 ev3 : AnovaEvent) (callback : Callback) f w :
  d1 <> [] -> d2 <> [] -> d3 <> [] ->
  decode d1 = Return m1 -> decode d2 = Return m2 -> decode d3 = Return m3 ->
  classify m1 = EventMessage ->
  classify m2 = ReplyMessage ->
  classify m3 = EventMessage ->
  parse_event m1 = Return ev1 -> parse_event m3 = Return ev3 ->
  event_callback w = Some callback ->
  callback ev1 = Return tt -> callback ev3 = Return tt ->
  waiter w = Some f ->
  let w' := (_listen [Return d1; Return d2; Return d3] w).1 in
  (_listen [Return d1; Return d2; Return d3] w).2 = true /\
  delivered w' = (delivered w ++ [ev1; ev3])%list /\
  futures w' = <[f := FutResult m2]> (futures w) /\
  log w' = (log w ++ [(DEBUG, ("Received message: " ++ m1)%string);
                      (DEBUG, ("Received message: " ++ m2)%string);
                      (DEBUG, ("Received message: " ++ m3)%string)])%list.
Proof.
  intros Hn1 Hn2 Hn3 Hd1 Hd2 Hd3 Hc1 Hc2 Hc3 Hp1 Hp3 Hcb Hk1 Hk3 Hw.
  set (w1 := set_delivered (delivered w ++ [ev1])
               (logger DEBUG ("Received message: " ++ m1) w)).
  assert (H1 : listen_iteration (Return d1) w = (w1, true)).
  { eapply listen_iteration_returned.
    rewrite (receive_decoded _ _ _ Hn1 Hd1),
      (route_event_callback _ _ _ Hc1 Hcb). simpl.
    rewrite Hp1, Hk1. reflexivity. }
  set (w2 := set_result f m2 (logger DEBUG ("Received message: " ++ m2) w1)).
  assert (H2 : listen_iteration (Return d2) w1 = (w2, true)).
  { eapply listen_iteration_returned.
    rewrite (receive_decoded _ _ _ Hn2 Hd2).
    apply (route_reply_waiter _ _ _ Hc2). exact Hw. }
  set (w3 := set_delivered (delivered w2 ++ [ev3])
               (logger DEBUG ("Received message: " ++ m3) w2)).
  assert (H3 : listen_iteration (Return d3) w2 = (w3, true)).
  { eapply listen_iteration_returned.
    rewrite (receive_decoded _ _ _ Hn3 Hd3),
      (route_event_callback m3 w2 callback Hc3 Hcb). simpl.
    rewrite Hp3, Hk3. reflexivity. }
  intros w'. subst w'. cbn [_listen]. rewrite H1, H2, H3. cbn [fst snd].
  split; [reflexivity|]. split; [simpl; by rewrite <- app_assoc|].
  split; [reflexivity|]. simpl. by rewrite <- !app_assoc.
Qed.

End LoopEnd.

(** ** The slot and the outcomes of calls, in every execution *)
Section SlotInvariant.
Context {P : Protocol}.
Implicit Types (w : World) (a : Action).

(** A step keeps the slot, empties it, or is a call of [send_command]. *)
Lemma step_slot a w w' :
  step a w = Some w' ->
  response_future w' = response_future w \/
  response_future w' = None \/
  exists m dr, a = ASendCommand m dr.
Proof.
  destruct a; simpl; intros H; eauto.
  - left. unfold timer in H. repeat case_match; by simplify_eq.
  - unfold resume, on_timeout in H.
    repeat case_match; simplify_eq; simpl; auto.
  - right; left. unfold cancel_call in H. repeat case_match; by simplify_eq.
  - left. by simplify_eq.
  - left. simplify_eq. unfold start_listening. by case_match.
  - left. unfold run_task in H. repeat case_match; by simplify_eq.
  - left. unfold data_arrives in H. repeat case_match; simplify_eq.
    by destruct (after_iteration_frame t (Return data) w)
      as (_ & _ & _ & _ & _ & ?).
  - left. simplify_eq. unfold close, close_after_await, close_stream.
    repeat case_match; simplify_eq; reflexivity.
  - left. unfold close_resume, close_after_await, close_stream in H.
    repeat case_match; simplify_eq; reflexivity.
Qed.

Lemma step_calls_length a w w' :
  step a w = Some w' ->
  (exists m dr, a = ASendCommand m dr) \/
  List.length (calls w') = List.length (calls w).
Proof.
  intros H. destruct (step_calls _ _ _ H)
    as [->|[(m & dr & -> & _)|(c0 & _ & st & -> & _)]]; eauto.
  right. apply length_alter.
Qed.

Lemma step_futures_length a w w' :
  step a w = Some w' ->
  (exists m dr, a = ASendCommand m dr) \/
  List.length (futures w') = List.length (futures w).
Proof.
  destruct a; simpl; intros H; [left; by eauto | right..].
  - unfold timer in H. repeat case_match; simplify_eq. simpl.
    apply length_insert.
  - unfold resume in H. repeat case_match; simplify_eq; try reflexivity.
    match goal with
    | |- context [on_timeout ?c ?m ?w] =>
        by destruct (on_timeout_futures c m w) as [-> _]
    end.
  - unfold cancel_call in H. repeat case_match; simplify_eq; simpl;
      apply length_insert.
  - by simplify_eq.
  - simplify_eq. unfold start_listening. by case_match.
  - unfold run_task in H. repeat case_match; by simplify_eq.
  - unfold data_arrives in H. repeat case_match; simplify_eq.
    unfold after_iteration. simpl. rewrite listen_iteration_world.
    assert (Hlen : List.length (futures (receive (Return data) w).1)
                   = List.length (futures w)).
    { unfold receive, route. repeat case_match; simplify_eq/=;
        try reflexivity. apply length_insert. }
    by destruct ((receive (Return data) w).2).
  - simplify_eq. unfold close, close_after_await, close_stream.
    repeat case_match; simplify_eq; reflexivity.
  - unfold close_resume, close_after_await, close_stream in H.
    repeat case_match; simplify_eq; reflexivity.
Qed.

Lemma step_latest a w w' :
  (List.length (futures w) <= List.length (calls w) /\
   forall f, response_future w = Some f -> S f = List.length (futures w)) ->
  step a w = Some w' ->
  List.length (futures w') <= List.length (calls w') /\
  forall f, response_future w' = Some f -> S f = List.length (futures w').
Proof.
  intros [Hlen Hslot] Hs.
  destruct (step_calls_length _ _ _ Hs) as [(m & dr & ->)|Hc].
  - simpl in Hs. simplify_eq. destruct dr as [[]|e]; simpl;
      rewrite ?length_app; simpl.
    + split; [lia|]. intros f [= <-]. lia.
    + split; [lia|]. exact Hslot.
  - destruct (step_futures_length _ _ _ Hs) as [(m & dr & ->)|Hf].
    + simpl in Hs. simplify_eq. rewrite send_command_calls in Hc.
      rewrite length_app in Hc. simpl in Hc. lia.
    + split; [lia|]. intros f Hf'. rewrite Hf.
      destruct (step_slot _ _ _ Hs) as [Heq|[Heq|(m & dr & ->)]].
      * apply Hslot. by rewrite <- Heq.
      * congruence.
      * simpl in Hs. simplify_eq. rewrite send_command_calls in Hc.
        rewrite length_app in Hc. simpl in Hc. lia.
Qed.

(** X12. In every state of every execution the slot, when it is not
    empty, holds the future that was created last: a reply can only ever
    reach the waiter created most recently.  A call creates one future,
    after [drain] has returned, and none when [drain] raises, so there
    are never more futures than calls. *)
Theorem slot_holds_latest_future w f :
  reachable w ->
  response_future w = Some f ->
  S f = List.length (futures w) /\
  List.length (futures w) <= List.length (calls w).
Proof.
  intros [acts H] Hf.
  assert (Hinv : forall acts0 w0 w1,
            (List.length (futures w0) <= List.length (calls w0) /\
             forall f, response_future w0 = Some f ->
                       S f = List.length (futures w0)) ->
            run acts0 w0 = Some w1 ->
            List.length (futures w1) <= List.length (calls w1) /\
            forall f, response_future w1 = Some f ->
                      S f = List.length (futures w1)).
  { clear. induction acts0 as [|a acts0 IH]; intros w0 w1 Hi Hr; simpl in Hr.
    - by simplify_eq.
    - destruct (step a w0) as [w2|] eqn:Hs; [|discriminate].
      eapply IH; [|exact Hr]. by eapply step_latest. }
  destruct (Hinv acts init w) as [Hlen Hslot]; [|exact H|].
  - split; [reflexivity | discriminate].
  - split; [by apply Hslot | exact Hlen].
Qed.

(** A step that completes a call which was suspended, that is, which
    had entered the [try] statement, completes it with a string, with
    [CancelledError] or with the [TypeError] of awaiting [None]. *)
Lemma step_suspended_outcome a w w' c cl r :
  suspended w c ->
  step a w = Some w' ->
  calls w' !! c = Some cl -> at_ cl = Completed r ->
  call_outcome r.
Proof.
  intros (cl0 & Hc0 & Hn0) Hs Hc Hr.
  assert (Hsame : calls w' !! c = calls w !! c -> call_outcome r).
  { intros Heq. rewrite Heq, Hc0 in Hc. simplify_eq. by destruct (Hn0 r). }
  assert (Hold : forall c0 st,
            (forall r0, st = Completed r0 -> call_outcome r0) ->
            calls w' = alter (with_state st) c0 (calls w) ->
            call_outcome r).
  { intros c0 st Hst Heq. rewrite Heq, list_lookup_alter in Hc.
    case_decide; [|rewrite Hc0 in Hc; simplify_eq; by destruct (Hn0 r)].
    subst c0. rewrite Hc0 in Hc. simplify_eq/=. by apply Hst. }
  destruct a; simpl in Hs.
  - simplify_eq. apply Hsame. rewrite send_command_calls.
    apply lookup_app_l. by eapply lookup_lt_Some.
  - unfold timer in Hs. repeat case_match; simplify_eq.
    eapply Hold; [|reflexivity]. discriminate.
  - unfold resume, on_timeout, await_future in Hs.
    repeat case_match; simplify_eq;
      (eapply Hold; [|reflexivity]);
      intros ? [= <-]; exact I.
  - unfold cancel_call in Hs. repeat case_match; simplify_eq;
      (eapply Hold; [|reflexivity]); intros ? [= <-]; exact I.
  - simplify_eq. by apply Hsame.
  - simplify_eq. apply Hsame. unfold start_listening.
    by destruct (listen_task w).
  - apply Hsame. by rewrite (run_task_calls _ _ _ Hs).
  - apply Hsame. by rewrite (data_arrives_calls _ _ _ _ Hs).
  - simplify_eq. apply Hsame. by rewrite close_calls.
  - apply Hsame. by rewrite (close_resume_calls _ _ _ _ Hs).
Qed.

(** A step does not remove a call. *)
Lemma step_call_kept a w w' c cl :
  step a w = Some w' -> calls w !! c = Some cl ->
  exists cl', calls w' !! c = Some cl'.
Proof.
  intros Hs Hc. apply lookup_lt_is_Some_2.
  apply lookup_lt_Some in Hc.
  destruct (step_calls_length _ _ _ Hs) as [(m & dr & ->)|Hlen];
    [|by rewrite Hlen].
  simpl in Hs. simplify_eq. rewrite send_command_calls, length_app. lia.
Qed.

(** X13. A call of [send_command] that has entered the [try] statement,
    which it does when [drain] has returned, completes, in whatever
    continuation, with a string, with [CancelledError] or with the
    [TypeError] of awaiting [None]: the timeout of [wait_for] is never
    reported to the caller as a [TimeoutError], every [TimeoutError]
    raised in the [try] statement being taken by the handler of
    line 31. *)
Theorem waiting_call_never_raises_TimeoutError acts w w' c m r :
  suspended w c ->
  run acts w = Some w' ->
  calls w' !! c = Some {| message := m; at_ := Completed r |} ->
  call_outcome r /\ r <> Raise TimeoutError.
Proof.
  intros Hsus Hrun Hc.
  assert (Hout : call_outcome r).
  { revert w Hsus Hrun.
    induction acts as [|a acts IH]; intros w Hsus Hrun; simpl in Hrun.
    - simplify_eq. destruct Hsus as (cl & Hcl & Hn).
      rewrite Hc in Hcl. simplify_eq. by destruct (Hn r).
    - destruct (step a w) as [w1|] eqn:Hs; [|discriminate].
      pose proof Hsus as (cl & Hcl & _).
      destruct (step_call_kept _ _ _ _ _ Hs Hcl) as [cl1 Hc1].
      destruct (at_ cl1) as [f b|g|r1] eqn:Hat.
      + apply (IH w1); [|exact Hrun].
        exists cl1. split; [exact Hc1|]. rewrite Hat. discriminate.
      + apply (IH w1); [|exact Hrun].
        exists cl1. split; [exact Hc1|]. rewrite Hat. discriminate.
      + pose proof (run_completed_stable _ _ _ _ _ _ Hrun Hc1 Hat) as Hc'.
        rewrite Hc in Hc'. simplify_eq. simpl in Hat. simplify_eq.
        eapply step_suspended_outcome; [exact Hsus | exact Hs | exact Hc1|].
        reflexivity. }
  split; [exact Hout|]. intros ->. exact Hout.
Qed.

End SlotInvariant.

(** * Further executions on the sample protocol *)
Module MoreRuns.
Import Sample.
#[local] Existing Instance protocol.

Lemma receive_delivers_event_witness :
  let w := exec [ASetEventCallback quiet_callback; ASendCommand "status" (Return tt)] in
  let data := wire "event stop" in
  data <> [] /\
  decode data = Return "event stop" /\
  classify "event stop" = EventMessage /\
  event_callback w = Some quiet_callback /\
  parse_event "event stop" = Return "stop" /\
  quiet_callback "stop" = Return tt /\
  (receive (Return data) w).2 = Return (Some "event stop") /\
  delivered (receive (Return data) w).1 = ["stop"] /\
  futures (receive (Return data) w).1 = [FutPending].
Proof.
  intros w data.
  split; [discriminate|]. do 5 (split; [reflexivity|]).
  destruct (receive_delivers_event (P := protocol)
              data "event stop" "stop" quiet_callback w
              ltac:(discriminate) eq_refl eq_refl eq_refl eq_refl eq_refl)
    as (H1 & H2 & H3 & _).
  split; [exact H1|]. split; [exact H2 | exact H3].
Defined.

Lemma set_event_callback_replaces_witness :
  let data := wire "event stop" in
  let w1 := set_event_callback quiet_callback
              (set_event_callback failing_callback init) in
  data <> [] /\
  decode data = Return "event stop" /\
  classify "event stop" = EventMessage /\
  parse_event "event stop" = Return "stop" /\
  delivered (receive (Return data) w1).1 = ["stop"] /\
  (receive (Return data) w1).2 = Return (Some "event stop").
Proof.
  intros data w1.
  split; [discriminate|]. do 3 (split; [reflexivity|]).
  destruct (set_event_callback_replaces (P := protocol)
              failing_callback quiet_callback data "event stop" "stop" init
              ltac:(discriminate) eq_refl eq_refl eq_refl)
    as (_ & _ & H1 & H2).
  split; [exact H1 | exact H2].
Defined.

Lemma send_command_returns_reply_witness :
  let data := wire "running" in
  let w2 := (receive (Return data) (send_command "status" (Return tt) init)).1 in
  data <> [] /\
  decode data = Return "running" /\
  classify "running" = ReplyMessage /\
  written (writer (send_command "status" (Return tt) init)) =
    [encode "status"; [x16]] /\
  exists w3,
    resume 0 w2 = Some w3 /\
    calls w3 !! 0 =
      Some {| message := "status"; at_ := Completed (Return "running") |} /\
    response_future w3 = None.
Proof.
  intros data w2.
  split; [discriminate|]. do 2 (split; [reflexivity|]).
  destruct (send_command_returns_reply (P := protocol)
              "status" data "running" init
              ltac:(discriminate) eq_refl eq_refl)
    as (H1 & _ & _ & H2).
  split; [exact (H1 (Return tt)) | exact H2].
Defined.

Lemma done_future_is_final_witness :
  let before := [ASendCommand "status" (Return tt); AStartListening; ARunTask 0;
                 AData 0 (wire "running")] in
  let acts := [AData 0 (wire "stopped"); AResume 0] in
  let w := exec before in
  let w' := exec (before ++ acts) in
  run acts w = Some w' /\
  futures w !! 0 = Some (FutResult "running") /\
  done (FutResult "running") = true /\
  futures w' !! 0 = Some (FutResult "running").
Proof.
  intros before acts w w'.
  assert (Hrun : run acts w = Some w') by (vm_compute; reflexivity).
  split; [exact Hrun|]. do 2 (split; [reflexivity|]).
  exact (done_future_is_final (P := protocol) acts w w' 0
           (FutResult "running") Hrun eq_refl eq_refl).
Defined.

Lemma written_is_frames_sent_witness :
  let acts := [ASendCommand "read temp" (Return tt); AStartListening; ASendCommand "stop" (Return tt);
               AClose (Return tt)] in
  let w := exec acts in
  reachable w /\
  written (writer w) =
    [encode "read temp"; [x16]; encode "stop"; [x16]].
Proof.
  intros acts w.
  assert (Hr : reachable w) by (apply (Runs.exec_reachable acts w); vm_compute; reflexivity).
  split; [exact Hr|].
  exact (written_is_frames_sent (P := protocol) w Hr).
Defined.

Lemma timeout_with_empty_slot_raises_TypeError_witness :
  let w := exec [ASendCommand "read temp" (Return tt); ASendCommand "stop" (Return tt);
                 AStartListening; ARunTask 0;
                 AData 0 (wire "25.0"); AResume 1] in
  calls w !! 0 =
    Some {| message := "read temp"; at_ := InWaitFor 0 false |} /\
  futures w !! 0 = Some FutPending /\
  response_future w = None /\
  exists w1 w2,
    timer 0 w = Some w1 /\
    resume 0 w1 = Some w2 /\
    calls w2 !! 0 =
      Some {| message := "read temp";
              at_ := Completed (Raise (TypeError
                "object NoneType can't be used in 'await' expression")) |}.
Proof.
  intros w. do 3 (split; [reflexivity|]).
  destruct (timeout_with_empty_slot_raises_TypeError (P := protocol)
              0 0 "read temp" w eq_refl eq_refl eq_refl)
    as (w1 & w2 & H1 & H2 & H3 & _).
  exists w1, w2. split; [exact H1|]. split; [exact H2 | exact H3].
Defined.

Lemma timed_out_call_shares_reply_witness :
  let w := exec [ASendCommand "read temp" (Return tt); ASendCommand "stop" (Return tt)] in
  let data := wire "25.0" in
  0 <> 1 /\
  calls w !! 0 =
    Some {| message := "read temp"; at_ := InWaitFor 0 false |} /\
  calls w !! 1 = Some {| message := "stop"; at_ := InWaitFor 1 false |} /\
  futures w !! 0 = Some FutPending /\
  futures w !! 1 = Some FutPending /\
  response_future w = Some 1 /\
  data <> [] /\
  decode data = Return "25.0" /\
  classify "25.0" = ReplyMessage /\
  exists w5,
    calls w5 !! 0 =
      Some {| message := "read temp"; at_ := Completed (Return "25.0") |} /\
    calls w5 !! 1 =
      Some {| message := "stop"; at_ := Completed (Return "25.0") |}.
Proof.
  intros w data.
  split; [discriminate|]. do 5 (split; [reflexivity|]).
  split; [discriminate|]. do 2 (split; [reflexivity|]).
  destruct (timed_out_call_shares_reply (P := protocol)
              0 1 0 1 "read temp" "stop" data "25.0" w
              ltac:(discriminate) eq_refl eq_refl eq_refl eq_refl
              ltac:(discriminate) eq_refl ltac:(discriminate)
              eq_refl eq_refl)
    as (w1 & w2 & w4 & w5 & _ & _ & _ & _ & _ & H1 & H2).
  exists w5. split; [exact H1 | exact H2].
Defined.

Lemma completion_clears_waiter_of_other_call_witness :
  let w := exec [ASendCommand "read temp" (Return tt); AStartListening; ARunTask 0;
                 AData 0 (wire "25.0"); ASendCommand "stop" (Return tt)] in
  let data := wire "stopped" in
  calls w !! 0 =
    Some {| message := "read temp"; at_ := InWaitFor 0 false |} /\
  futures w !! 0 = Some (FutResult "25.0") /\
  response_future w = Some 1 /\
  futures w !! 1 = Some FutPending /\
  data <> [] /\
  decode data = Return "stopped" /\
  classify "stopped" = ReplyMessage /\
  exists w1,
    resume 0 w = Some w1 /\
    response_future w1 = None /\
    futures (receive (Return data) w1).1 !! 1 = Some FutPending.
Proof.
  intros w data. do 4 (split; [reflexivity|]).
  split; [discriminate|]. do 2 (split; [reflexivity|]).
  destruct (completion_clears_waiter_of_other_call (P := protocol)
              0 0 false "read temp" "25.0" 1 data "stopped" w
              eq_refl eq_refl eq_refl eq_refl
              ltac:(discriminate) eq_refl eq_refl)
    as (w1 & H1 & _ & H2 & _ & _ & H3).
  exists w1. split; [exact H1|]. split; [exact H2 | exact H3].
Defined.

Lemma peer_close_ends_loop_witness :
  let acts := [ASendCommand "status" (Return tt); AStartListening; ARunTask 0] in
  let w := exec acts in
  reachable w /\
  listen_task w = Some 0 /\
  tasks w !! 0 = Some (TaskReading false) /\
  exists w',
    data_arrives 0 [] w = Some w' /\
    tasks w' !! 0 = Some TaskFinished /\
    futures w' = [FutPending] /\
    response_future w' = Some 0 /\
    closed (writer w') = false.
Proof.
  intros acts w.
  assert (Hr : reachable w) by (apply (Runs.exec_reachable acts w); vm_compute; reflexivity).
  split; [exact Hr|]. do 2 (split; [reflexivity|]).
  destruct (peer_close_ends_loop (P := protocol) 0 w Hr eq_refl eq_refl)
    as (w' & H1 & H2 & _ & H3 & H4 & _ & H5 & _).
  exists w'. split; [exact H1|]. split; [exact H2|].
  split; [by rewrite H3|]. split; [by rewrite H4 | by rewrite H5].
Defined.

Lemma ended_loop_is_never_restarted_witness :
  let before := [AStartListening; ARunTask 0; AData 0 []] in
  let acts := [AClose (Return tt); AStartListening;
               ASendCommand "status"
                 (Raise (ConnectionResetError "Connection lost"))] in
  let w := exec before in
  let w' := exec (before ++ acts) in
  reachable w /\
  listen_task w = Some 0 /\
  tasks w !! 0 = Some TaskFinished /\
  run acts w = Some w' /\
  tasks w' = [TaskFinished] /\
  start_listening w' = w' /\
  data_arrives 0 (wire "running") w' = None.
Proof.
  intros before acts w w'.
  assert (Hr : reachable w) by (apply (Runs.exec_reachable before w); vm_compute; reflexivity).
  assert (Hrun : run acts w = Some w') by (vm_compute; reflexivity).
  split; [exact Hr|]. do 2 (split; [reflexivity|]). split; [exact Hrun|].
  destruct (ended_loop_is_never_restarted (P := protocol)
              0 TaskFinished acts w w' Hr eq_refl eq_refl eq_refl Hrun)
    as (_ & H1 & H2 & H3 & _).
  split; [by rewrite H1|]. split; [exact H2 | apply H3].
Defined.

Lemma listen_routes_in_arrival_order_witness :
  let w := exec [ASetEventCallback quiet_callback; ASendCommand "status" (Return tt)] in
  let reads := [Return (wire "event start"); Return (wire "running");
                Return (wire "event stop")] in
  event_callback w = Some quiet_callback /\
  waiter w = Some 0 /\
  (_listen reads w).2 = true /\
  delivered (_listen reads w).1 = ["start"; "stop"] /\
  futures (_listen reads w).1 = [FutResult "running"].
Proof.
  intros w reads. do 2 (split; [reflexivity|]).
  destruct (listen_routes_in_arrival_order (P := protocol)
              (wire "event start") (wire "running") (wire "event stop")
              "event start" "running" "event stop" "start" "stop"
              quiet_callback 0 w
              ltac:(discriminate) ltac:(discriminate) ltac:(discriminate)
              eq_refl eq_refl eq_refl eq_refl eq_refl eq_refl
              eq_refl eq_refl eq_refl eq_refl eq_refl eq_refl)
    as (H1 & H2 & H3 & _).
  split; [exact H1|]. split; [exact H2 | exact H3].
Defined.

(** A first call waits; the connection is closed; the [drain] of a
    second call raises: two calls, one future, and the slot holds it. *)
Lemma slot_holds_latest_future_witness :
  let acts := [ASendCommand "read temp" (Return tt); AClose (Return tt);
               ASendCommand "stop"
                 (Raise (ConnectionResetError "Connection lost"))] in
  let w := exec acts in
  reachable w /\
  response_future w = Some 0 /\
  List.length (futures w) = 1 /\
  List.length (futures w) <= List.length (calls w) /\
  List.length (calls w) = 2.
Proof.
  intros acts w.
  assert (Hr : reachable w)
    by (apply (Runs.exec_reachable acts w); vm_compute; reflexivity).
  split; [exact Hr|]. split; [reflexivity|].
  destruct (slot_holds_latest_future (P := protocol) w 0 Hr eq_refl)
    as (H1 & H2).
  split; [by rewrite <- H1|]. split; [exact H2 | reflexivity].
Defined.

Lemma waiting_call_never_raises_TimeoutError_witness :
  let w := exec [ASendCommand "status" (Return tt)] in
  let acts := [ATimer 0; AResume 0] in
  let w' := exec ([ASendCommand "status" (Return tt)] ++ acts) in
  suspended w 0 /\
  run acts w = Some w' /\
  calls w' !! 0 =
    Some {| message := "status"; at_ := Completed (Raise CancelledError) |} /\
  Raise CancelledError <> Raise (A := string) TimeoutError.
Proof.
  intros w acts w'.
  assert (Hsus : suspended w 0).
  { exists {| message := "status"; at_ := InWaitFor 0 false |}.
    split; [reflexivity | discriminate]. }
  assert (Hrun : run acts w = Some w') by (vm_compute; reflexivity).
  split; [exact Hsus|]. split; [exact Hrun|]. split; [reflexivity|].
  exact (proj2 (waiting_call_never_raises_TimeoutError (P := protocol)
                  acts w w' 0 "status" (Raise CancelledError)
                  Hsus Hrun eq_refl)).
Defined.

End MoreRuns.
